(** * TOBIAS ClusterMotifs: the clustering and consensus core of
      [tobias/motifs/motif_clust.py], embedded in Rocq.

    The Python functions are rendered as functions over explicit data:
    - Python exceptions become the [Raise] branch of an error monad;
    - insertion-ordered [dict]s whose key order is observed become
      association lists ([pdict]); the scratch nested dict of
      [generate_similarity_matrix] is a [gmap];
    - numpy/pandas floating point numbers are idealised as exact rationals
      ([Q]); comparisons and rounding are the exact ones;
    - gimmemotifs [Motif] objects live in a heap and are handled through
      references, with the working list of [generate_consensus_motif]
      mutated in place, as in the source;
    - the gimmemotifs primitives ([average_motifs], [get_all_scores]) are
      parameters of the development. *)

From Stdlib Require Import Ascii QArith Qround Lqa.
From stdpp Require Import gmap strings list pretty.

(** ** Exceptions and the error monad *)

Inductive exn : Type :=
  | KeyError (key : string)
  | IndexError
  | ValueError
  | UnboundLocalError (var : string)
  | RecursionError.

Inductive result (A : Type) : Type :=
  | Ok (a : A)
  | Raise (e : exn).
Arguments Ok {A} a.
Arguments Raise {A} e.

#[global] Instance result_ret : MRet result := fun _ a => Ok a.
#[global] Instance result_bind : MBind result := fun _ _ f m =>
  match m with
  | Ok a => f a
  | Raise e => Raise e
  end.

(** [for x in l: s = body s x], stopping at the first exception. *)
Fixpoint for_each {X S : Type} (body : S -> X -> result S) (l : list X) (s : S)
  : result S :=
  match l with
  | [] => Ok s
  | x :: l' => s' ← body s x; for_each body l' s'
  end.

(** A list comprehension [[f x for x in l]] whose element expression may
    raise. *)
Fixpoint comprehension {X Y : Type} (f : X -> result Y) (l : list X)
  : result (list Y) :=
  match l with
  | [] => Ok []
  | x :: l' => y ← f x; ys ← comprehension f l'; Ok (y :: ys)
  end.

(** ** Identifiers: [s.replace('\t', ' ')] *)

Definition tab : ascii := "009"%char.
Definition space : ascii := " "%char.

Fixpoint replace_tab (s : string) : string :=
  match s with
  | EmptyString => EmptyString
  | String c s' => String (if Ascii.eqb c tab then space else c) (replace_tab s')
  end.

Fixpoint has_tab (s : string) : bool :=
  match s with
  | EmptyString => false
  | String c s' => Ascii.eqb c tab || has_tab s'
  end.

(** ** Numbers *)

(** [np.mean([a, b])]: the sum divided by the number of elements. *)
Definition mean2 (a b : Q) : Q := ((a + b) / 2)%Q.

(** [rint]: the nearest integer, halves to the even neighbour. *)
Definition rint (x : Q) : Z :=
  let f := Qfloor x in
  let r := (x - inject_Z f)%Q in
  match (r ?= 1 # 2)%Q with
  | Lt => f
  | Gt => (f + 1)%Z
  | Eq => if Z.even f then f else (f + 1)%Z
  end.

(** [round(x, 3)] on a numpy scalar: scale by [10**3], [rint], scale back. *)
Definition round3 (x : Q) : Q := (inject_Z (rint (x * 1000)) / 1000)%Q.

(** [.replace(-0, 0)]: the literal [-0] is the integer [0], so every value
    that compares equal to zero is overwritten by [0]. *)
Definition replace_neg_zero (x : Q) : Q := if Qeq_bool x 0 then 0%Q else x.

(** The distance written for a pair of directional similarities. *)
Definition distance (s12 s21 : Q) : Q := round3 (1 - mean2 s12 s21).

(** ** Python dicts with observable key order *)

Definition pdict (V : Type) : Type := list (string * V).

Definition keys {V} (d : pdict V) : list string := d.*1.
Definition values {V} (d : pdict V) : list V := d.*2.

(** [d[k]] as an expression. *)
Fixpoint getitem {V} (d : pdict V) (k : string) : result V :=
  match d with
  | [] => Raise (KeyError k)
  | (k', v) :: d' => if decide (k = k') then Ok v else getitem d' k
  end.

(** [d[k] = v]: an existing key keeps its position, a new one goes last. *)
Fixpoint setitem {V} (d : pdict V) (k : string) (v : V) : pdict V :=
  match d with
  | [] => [(k, v)]
  | (k', v') :: d' =>
      if decide (k = k') then (k, v) :: d' else (k', v') :: setitem d' k v
  end.

(** [{k: v for (k, v) in kvs}] *)
Definition dict_of_items {V} (kvs : list (string * V)) : pdict V :=
  fold_left (fun d kv => setitem d kv.1 kv.2) kvs [].

(** ** Scores *)

(** One entry of the gimmemotifs score table: [[score, pos, strand]]. *)
Record PairwiseScore : Type := mkScore {
  similarity : Q;
  offset : Z;
  orientation : Z
}.

Definition ScoreMap : Type := pdict (pdict PairwiseScore).

(** [score_dict[a][b]] *)
Definition getitem2 (score_dict : ScoreMap) (a b : string) : result PairwiseScore :=
  inner ← getitem score_dict a; getitem inner b.

(** ** The distance matrix *)

(** A pandas DataFrame of numbers: the row labels and, per column label in
    column order, the values of that column in row order. *)
Record DataFrame : Type := mkDataFrame {
  df_index : list string;
  df_columns : pdict (list Q)
}.

(** [list.index]: the first position of a label. *)
Fixpoint index_of (x : string) (l : list string) : option nat :=
  match l with
  | [] => None
  | y :: l' => if decide (x = y) then Some 0 else S <$> index_of x l'
  end.

(** [df.loc[row, col]] for labels that identify one cell. *)
Definition loc (df : DataFrame) (row col : string) : option Q :=
  match getitem (df_columns df) col with
  | Ok vec => i ← index_of row (df_index df); vec !! i
  | Raise _ => None
  end.

Definition df_replace_neg_zero (df : DataFrame) : DataFrame :=
  mkDataFrame (df_index df)
    (map (fun kv => (kv.1, map replace_neg_zero kv.2)) (df_columns df)).

(** [similarity_dict[a][b] = v] on the nested scratch dict; the outer
    lookup raises when [a] is not a key. *)
Definition setitem2 (similarity_dict : gmap string (gmap string Q))
    (a b : string) (v : Q) : result (gmap string (gmap string Q)) :=
  match similarity_dict !! a with
  | Some inner => Ok (<[a := <[b := v]> inner]> similarity_dict)
  | None => Raise (KeyError a)
  end.

(** [similarity_dict[a][b]] *)
Definition lookup2 (similarity_dict : gmap string (gmap string Q))
    (a b : string) : result Q :=
  match similarity_dict !! a with
  | Some inner =>
      match inner !! b with
      | Some v => Ok v
      | None => Raise (KeyError b)
      end
  | None => Raise (KeyError a)
  end.

(** The body of the inner loop of [generate_similarity_matrix], for the
    outer key [m1] with label [l1 = m1_labels[i]] and the inner key [m2]
    with label [l2 = m2_labels[j]]. *)
Definition sim_step (score_dict : ScoreMap) (m1 l1 : string)
    (sd : gmap string (gmap string Q)) (p : string * string)
  : result (gmap string (gmap string Q)) :=
  let '(m2, l2) := p in
  s12 ← getitem2 score_dict m1 m2;
  s21 ← getitem2 score_dict m2 m1;
  let score := round3 (1 - mean2 (similarity s12) (similarity s21)) in
  sd ← setitem2 sd l1 l2 score;
  setitem2 sd l2 l1 score.

Definition generate_similarity_matrix (score_dict : ScoreMap) : result DataFrame :=
  let m1_keys := keys score_dict in
  m2_keys ← match values score_dict with
            | [] => Raise IndexError
            | inner :: _ => Ok (keys inner)
            end;
  let m1_labels := replace_tab <$> m1_keys in
  let m2_labels := replace_tab <$> m2_keys in
  (* similarity_dict = {m: {} for m in m1_labels} *)
  let similarity_dict0 : gmap string (gmap string Q) :=
    list_to_map ((fun m => (m, ∅)) <$> m1_labels) in
  (* the two enumerate loops; each key travels with its label *)
  similarity_dict ←
    for_each (fun sd '(m1, l1) =>
      for_each (sim_step score_dict m1 l1) (zip m2_keys m2_labels) sd)
      (zip m1_keys m1_labels) similarity_dict0;
  (* similarity_dict_format *)
  items ← comprehension (fun m1 =>
             vec ← comprehension (fun m2 => lookup2 similarity_dict m1 m2) m2_labels;
             Ok (m1, vec)) m1_labels;
  let similarity_dict_format := dict_of_items items in
  Ok (df_replace_neg_zero (mkDataFrame m2_labels similarity_dict_format)).

(** *** Specification vocabulary for the distance matrix *)

(** Every second-level key set equals the first-level key set. *)
Definition keysets_coincide (score_dict : ScoreMap) : Prop :=
  Forall (fun kv => ∀ x, x ∈ keys kv.2 ↔ x ∈ keys score_dict) score_dict.

(** Identifiers stay pairwise distinct after tab normalisation. *)
Definition labels_unique (score_dict : ScoreMap) : Prop :=
  NoDup (replace_tab <$> keys score_dict).

(** The cell [similarity_dict[a][b]], when present. *)
Definition cell (similarity_dict : gmap string (gmap string Q)) (a b : string)
  : option Q :=
  inner ← similarity_dict !! a; inner !! b.

(** What the loops maintain once the pairs [done] have been visited. *)
Record sim_inv (score_dict : ScoreMap) (done : list (string * string))
    (sd : gmap string (gmap string Q)) : Prop := {
  inv_dom : ∀ l, is_Some (sd !! l) ↔ l ∈ replace_tab <$> keys score_dict;
  inv_sym : ∀ x y, cell sd x y = cell sd y x;
  inv_done : ∀ a b, (a, b) ∈ done → is_Some (cell sd (replace_tab a) (replace_tab b));
  inv_val : ∀ x y v, cell sd x y = Some v →
    ∃ a b sab sba, a ∈ keys score_dict ∧ b ∈ keys score_dict ∧
      replace_tab a = x ∧ replace_tab b = y ∧
      getitem2 score_dict a b = Ok sab ∧ getitem2 score_dict b a = Ok sba ∧
      v = distance (similarity sab) (similarity sba)
}.

(** ** The dissimilarity classifier *)

(** [x > threshold] on one entry. *)
Definition Qgt_bool (x threshold : Q) : bool := negb (Qle_bool x threshold).

(** [col_vec.eq(True).all()] for [col_vec = column > threshold]. *)
Definition all_above (threshold : Q) (column : list Q) : bool :=
  forallb (fun b => Bool.eqb b true) (map (fun x => Qgt_bool x threshold) column).

(** [matrix.shape[1]] *)
Definition shape1 (matrix : DataFrame) : nat := length (df_columns matrix).

(** Positional access to a column: [matrix.columns[col]] together with
    [matrix.iloc[:, col]]. *)
Definition iloc_column (matrix : DataFrame) (col : nat) : result (string * list Q) :=
  match df_columns matrix !! col with
  | Some c => Ok c
  | None => Raise IndexError
  end.

(** The body of the loop over column positions. *)
Definition dissimilar_step (matrix : DataFrame) (threshold : Q)
    (dissimilar_motifs : list string) (col : nat) : result (list string) :=
  '(label, column) ← iloc_column matrix col;
  if all_above threshold column
  then Ok (dissimilar_motifs ++ [label])
  else Ok dissimilar_motifs.

(** [range(columns - 1)] is empty when [columns] is [0] (the upper bound is
    then [-1]); truncated subtraction gives the same range. *)
Definition get_dissimilar_motifs (matrix : DataFrame) (threshold : Q)
  : result (list string) :=
  let columns := shape1 matrix in
  for_each (dissimilar_step matrix threshold) (seq 0 (columns - 1)) [].

(** ** Grouping the flat cluster labels *)

(** [l[i]] on a sequence. *)
Definition list_index {A} (l : list A) (i : nat) : result A :=
  match l !! i with
  | Some x => Ok x
  | None => Raise IndexError
  end.

(** ["Cluster_" + str(n)] for an integer label. *)
Definition cluster_key (n : Z) : string := "Cluster_" +:+ pretty n.

(** [cluster[key].append(x)] on a [defaultdict(list)]: a missing key is
    first bound to the empty list. *)
Definition defaultdict_append (cluster : pdict (list string)) (key x : string)
  : pdict (list string) :=
  let members := match getitem cluster key with
                 | Ok members => members
                 | Raise _ => []
                 end in
  setitem cluster key (members ++ [x]).

(** The body of the loop over positions. *)
Definition cluster_step (labels : list Z) (label_names : list string)
    (cluster : pdict (list string)) (i : nat) : result (pdict (list string)) :=
  n ← list_index labels i;
  name ← list_index label_names i;
  Ok (defaultdict_append cluster (cluster_key n) name).

Definition get_cluster (labels : list Z) (label_names : list string)
  : result (pdict (list string)) :=
  for_each (cluster_step labels label_names) (seq 0 (length labels)) [].

(** *** Specification vocabulary for the grouping *)


(** ** The consensus builder *)

(** A gimmemotifs motif object: its identifier and its matrix.  The matrix
    type [M] is left open; the builder only hands matrices to the
    primitives. *)
Record Motif (M : Type) : Type := mkMotif {
  motif_id : string;
  pwm : M
}.
Arguments mkMotif {M} motif_id pwm.
Arguments motif_id {M} m.
Arguments pwm {M} m.

(** Object references. *)
Definition ref : Type := nat.

(** The calls to [Motif.average_motifs] that returned, in order:
    [merge_1.average_motifs(merge_2, pos, orientation)].  A call that raises
    ends the builder, and the exception is all that is left of the run. *)
Inductive event : Type :=
  | EvAverage (merge_1 merge_2 : ref) (pos orientation : Z).

(** The store the builder works on: the motif objects ([heap], allocated
    below [next]), the list object [motifs] that the recursion mutates in
    place, and the log of averaging calls. *)
Record state (M : Type) : Type := mkState {
  heap : ref -> Motif M;
  next : ref;
  motifs : list ref;
  trace : list event
}.
Arguments mkState {M} heap next motifs trace.
Arguments heap {M} s.
Arguments next {M} s.
Arguments motifs {M} s.
Arguments trace {M} s.

(** [itertools.combinations(l, 2)] *)
Fixpoint combinations2 {A} (l : list A) : list (A * A) :=
  match l with
  | [] => []
  | x :: l' => ((fun y => (x, y)) <$> l') ++ combinations2 l'
  end.

(** [l.remove(x)]: drops the first occurrence, [ValueError] when absent.
    Motif objects compare by identity. *)
Fixpoint list_remove (x : ref) (l : list ref) : result (list ref) :=
  match l with
  | [] => Raise ValueError
  | y :: l' =>
      if decide (x = y) then Ok l'
      else l'' ← list_remove x l'; Ok (y :: l'')
  end.

(** The local variables of the selection loop; [None] is "not yet bound". *)
Record selection : Type := mkSelection {
  max_score : Q;
  merge : option (ref * ref);
  score : option PairwiseScore
}.

Section ConsensusBuilder.
Context {M : Type}.
(** [Motif.average_motifs(other, pos, orientation)] builds a new motif, or
    raises: the library indexes the rows of the matrices by the offset it is
    given. *)
Variable average_motifs : Motif M -> Motif M -> Z -> Z -> result (Motif M).
(** [MotifComparer().get_all_scores(motifs, motifs, match="total",
    metric="pcc", combine="mean")] returns a score table, or raises. *)
Variable get_all_scores : list (Motif M) -> result ScoreMap.

(** [similarity_dict[motif_1.id][motif_2.id]] *)
Definition pair_score (heap : ref -> Motif M) (similarity_dict : ScoreMap)
    (p : ref * ref) : result PairwiseScore :=
  getitem2 similarity_dict (motif_id (heap p.1)) (motif_id (heap p.2)).

(** The body of the loop over pairs. *)
Definition select_step (heap : ref -> Motif M) (similarity_dict : ScoreMap)
    (sel : selection) (p : ref * ref) : result selection :=
  s ← pair_score heap similarity_dict p;
  if Qle_bool (max_score sel) (similarity s)
  then Ok (mkSelection (similarity s) (Some p) (Some s))
  else Ok (mkSelection (max_score sel) (merge sel) (Some s)).

(** The loop, from [max_score = 0]. *)
Definition select_pair (heap : ref -> Motif M) (similarity_dict : ScoreMap)
    (pairs : list (ref * ref)) : result selection :=
  for_each (select_step heap similarity_dict) pairs (mkSelection 0 None None).

(** One level of the recursion past the base case: select, average,
    alter the list. *)
Definition merge_level (st : state M) (similarity_dict : ScoreMap)
  : result (state M) :=
  sel ← select_pair (heap st) similarity_dict (combinations2 (motifs st));
  '(merge_1, merge_2) ← match merge sel with
                        | Some p => Ok p
                        | None => Raise (UnboundLocalError "merge_1")
                        end;
  s ← match score sel with
      | Some s => Ok s
      | None => Raise (UnboundLocalError "score")
      end;
  (* generate average motif *)
  average_motif ← average_motifs (heap st merge_1) (heap st merge_2)
                    (offset s) (orientation s);
  let average_motif :=
    mkMotif (motif_id (heap st merge_1) +:+ "_" +:+ motif_id (heap st merge_2))
            (pwm average_motif) in
  let r := next st in
  let heap' := fun x => if decide (x = r) then average_motif else heap st x in
  (* alter list *)
  let l := motifs st ++ [r] in
  l ← list_remove merge_1 l;
  l ← list_remove merge_2 l;
  Ok (mkState heap' (S r) l
        (trace st ++ [EvAverage merge_1 merge_2 (offset s) (orientation s)])).

(** The recursion, with the depth of the Python call stack made
    explicit. *)
Fixpoint generate_consensus_motif_rec (depth : nat) (st : state M)
    (similarity_dict : ScoreMap) : result (ref * state M) :=
  match depth with
  | 0 => Raise RecursionError
  | S depth =>
      if decide (length (motifs st) = 1) then
        r ← list_index (motifs st) 0; Ok (r, st)
      else
        st' ← merge_level st similarity_dict;
        sim_dict ← get_all_scores (heap st' <$> motifs st');
        generate_consensus_motif_rec depth st' sim_dict
  end.

(** Each level shortens the list by one, so a stack one deeper than the
    list is long is enough: a deeper one gives the same result. *)
Definition generate_consensus_motif (st : state M) (similarity_dict : ScoreMap)
  : result (ref * state M) :=
  generate_consensus_motif_rec (S (length (motifs st))) st similarity_dict.

(** [[m for m in motif_list if m.id in value]] *)
Definition cluster_motifs (heap : ref -> Motif M) (motif_list : list ref)
    (value : list string) : list ref :=
  filter (fun m => motif_id (heap m) ∈ value) motif_list.

(** The body of the loop over [cluster.items()]: a fresh working list
    per cluster, the motif objects shared. *)
Definition consensus_step (motif_list : list ref) (similarity_dict : ScoreMap)
    (acc : pdict ref * state M) (item : string * list string)
  : result (pdict ref * state M) :=
  let '(consensus_motifs, st) := acc in
  let '(cluster, value) := item in
  let work := cluster_motifs (heap st) motif_list value in
  '(r, st') ← generate_consensus_motif
                (mkState (heap st) (next st) work (trace st)) similarity_dict;
  Ok (setitem consensus_motifs cluster r, st').

Definition generate_consensus_motifs (st : state M) (motif_list : list ref)
    (cluster : pdict (list string)) (similarity_dict : ScoreMap)
  : result (pdict ref * state M) :=
  for_each (consensus_step motif_list similarity_dict) cluster ([], st).

(** *** Specification vocabulary for the builder *)

(** The score table answers every pair of the working list with a
    similarity that is not negative. *)
Definition scores_cover (similarity_dict : ScoreMap) (ms : list (Motif M)) : Prop :=
  ∀ a b, a ∈ ms → b ∈ ms →
    ∃ s, getitem2 similarity_dict (motif_id a) (motif_id b) = Ok s ∧
         (0 <= similarity s)%Q.
End ConsensusBuilder.

(** ** A worked scenario: motifs A, B and C *)

Module Scenario.
(** An averaging primitive and a comparison primitive to run the builder
    with: matrices are trivial, every pair is scored [1], and neither
    primitive raises. *)
Definition average (a b : Motif unit) (pos orientation : Z)
  : result (Motif unit) :=
  Ok (mkMotif "" tt).

(** An averaging primitive for motifs six positions long: as the library
    does when it indexes the rows of a matrix by the offset, it raises
    [IndexError] for an offset beyond the motif. *)
Definition bounded_average (a b : Motif unit) (pos orientation : Z)
  : result (Motif unit) :=
  if decide (6 < Z.abs pos)%Z then Raise IndexError else Ok (mkMotif "" tt).

Definition uniform_scores (ms : list (Motif unit)) : ScoreMap :=
  dict_of_items
    ((fun a => (a, dict_of_items
                     ((fun b => (b, mkScore 1 0 1)) <$> (motif_id <$> ms))))
       <$> (motif_id <$> ms)).

Definition all_scores (ms : list (Motif unit)) : result ScoreMap :=
  Ok (uniform_scores ms).

Definition heap3 (r : ref) : Motif unit :=
  match r with
  | 0 => mkMotif "A" tt
  | 1 => mkMotif "B" tt
  | _ => mkMotif "C" tt
  end.

(** sim(A,B) = 0.9, sim(A,C) = 0.2, sim(B,C) = 0.3, each pair with its own
    offset and orientation. *)
Definition score_dict3 : ScoreMap :=
  [("A", [("A", mkScore 1 0 1); ("B", mkScore (9 # 10) 1 1);
          ("C", mkScore (2 # 10) 2 1)]);
   ("B", [("A", mkScore (9 # 10) (-1) 1); ("B", mkScore 1 0 1);
          ("C", mkScore (3 # 10) 7 (-1))]);
   ("C", [("A", mkScore (2 # 10) (-2) 1); ("B", mkScore (3 # 10) (-7) (-1));
          ("C", mkScore 1 0 1)])].

Definition st3 : state unit := mkState heap3 3 [0; 1; 2] [].

(** A distance matrix whose last column lies above the threshold. *)
Definition matrix3 : DataFrame :=
  mkDataFrame ["X"; "Y"; "Z"]
    [("X", [9 # 10; 9 # 10; 9 # 10]);
     ("Y", [9 # 10; 0%Q; 1 # 10]);
     ("Z", [9 # 10; 9 # 10; 9 # 10])].

(** A motif whose identifier holds a tab. *)
Definition tabbed_id : string := String "a" (String tab "b").
Definition tabbed_scores : ScoreMap := [(tabbed_id, [(tabbed_id, mkScore 1 0 1)])].
Definition tabbed_heap (r : ref) : Motif unit := mkMotif tabbed_id tt.
End Scenario.

(** ** Vocabulary for the further properties *)

(** Every lookup the two loops of [generate_similarity_matrix] perform
    finds its entry. *)
Definition lookups_succeed (score_dict : ScoreMap) (m2_keys : list string) : Prop :=
  ∀ m1 m2, m1 ∈ keys score_dict → m2 ∈ m2_keys →
    (∃ s, getitem2 score_dict m1 m2 = Ok s) ∧
    (∃ s, getitem2 score_dict m2 m1 = Ok s).

(** The table the builder returns, in closed form. *)
Definition similarity_table (sd : gmap string (gmap string Q))
    (m1_labels m2_labels : list string) : DataFrame :=
  df_replace_neg_zero
    (mkDataFrame m2_labels
       (dict_of_items
          ((fun c => (c, (fun r => default 0%Q (cell sd c r)) <$> m2_labels))
             <$> m1_labels))).

(** The distinct labels, in the order of their first occurrence. *)
Definition first_occurrences (labels : list Z) : list Z :=
  fold_left (fun seen n => if decide (n ∈ seen) then seen else seen ++ [n])
    labels [].

(** ** Writing the consensus motifs *)

Definition newline : string := String "010"%char EmptyString.

Section OutputWrapper.
Context {M : Type}.
(** [Motif.to_meme()], [Motif.to_pwm()], [Motif.to_transfac()] *)
Variables to_meme to_pwm to_transfac : Motif M -> string.

Definition convert_motif (consensus_motif : Motif M) (f : string) : result string :=
  if decide (f = "meme") then Ok (to_meme consensus_motif)
  else if decide (f = "pwm") then Ok (to_pwm consensus_motif)
  else if decide (f = "transfac") then Ok (to_transfac consensus_motif)
  else Raise ValueError.

(** The body of the loop of [consensus_motif_out_wrapper] over
    [consensus_motifs.items()], on the motif objects and the text written to
    [cons_out]: the identifier is rewritten in place, then the motif is
    converted and written.  The image written by [save_motif_image] is left
    out. *)
Definition out_step (cons_format : string)
    (acc : (ref -> Motif M) * string) (item : string * ref)
  : result ((ref -> Motif M) * string) :=
  let '(heap, cons_out) := acc in
  let '(cluster, r) := item in
  let consensus_motif :=
    mkMotif (cluster +:+ "_" +:+ motif_id (heap r)) (pwm (heap r)) in
  let heap' := fun x => if decide (x = r) then consensus_motif else heap x in
  motif_string ← convert_motif consensus_motif cons_format;
  Ok (heap', cons_out +:+ motif_string +:+ newline +:+ newline).

Definition consensus_motif_out_wrapper (heap : ref -> Motif M)
    (consensus_motifs : pdict ref) (cons_format : string)
  : result ((ref -> Motif M) * string) :=
  for_each (out_step cons_format) consensus_motifs (heap, "").
End OutputWrapper.

(** ** Reading a Biopython motif: the conversion loop of [get_motifs] *)

(** The rows handed to [Motif(motif_rows)] for one Biopython motif:
    [counts[letter][pos_id]] for the four letters, for
    [pos_id in range(bio_motif.length - 1)].  The two loops only append, so
    they are written as comprehensions. *)
Definition get_motifs_rows (counts : list (list Q)) (length : nat)
  : result (list (list Q)) :=
  comprehension (fun pos_id =>
    comprehension (fun letter =>
      row ← list_index counts letter; list_index row pos_id) (seq 0 4))
    (seq 0 (length - 1)).

(** ** GC content *)

(** The exceptions of [get_gc_content]. *)
Inductive gc_exn : Type :=
  | GcIndexError
  | GcZeroDivisionError.

Inductive gc_result (A : Type) : Type :=
  | GcOk (a : A)
  | GcRaise (e : gc_exn).
Arguments GcOk {A} a.
Arguments GcRaise {A} e.

(** [round(x, 4)] on a Python float. *)
Definition round4 (x : Q) : Q := (inject_Z (rint (x * 10000)) / 10000)%Q.

(** [range(0, n - 1, 4)]: the multiples of four below [n - 1]. *)
Definition range_by_4 (n : nat) : list nat :=
  (fun k => 4 * k) <$> seq 0 ((n - 1 + 3) / 4).

(** The loop that sums the G and C ratios over the tokens of the PWM text:
    [gc_sum += float(m_pwm[x+1]) + float(m_pwm[x+2])]. *)
Fixpoint gc_sum_loop (m_pwm : list Q) (xs : list nat) (gc_sum : Q) : gc_result Q :=
  match xs with
  | [] => GcOk gc_sum
  | x :: xs' =>
      match m_pwm !! (x + 1), m_pwm !! (x + 2) with
      | Some c, Some g => gc_sum_loop m_pwm xs' (gc_sum + (c + g))%Q
      | _, _ => GcRaise GcIndexError
      end
  end.

Section GcContent.
Context {M : Type}.
(** The numbers of [m.to_pwm()] once the header line is removed and the text
    split, and [len(m)]. *)
Variable pwm_values : Motif M -> list Q.
Variable motif_len : Motif M -> nat.

(** The body of the loop of [get_gc_content] for one motif: its name and
    [[round(gc_content, 4), motif_length]]. *)
Definition gc_stats (m : Motif M) : gc_result (string * (Q * nat)) :=
  let m_pwm := pwm_values m in
  let motif_length := motif_len m in
  match gc_sum_loop m_pwm (range_by_4 (length m_pwm)) 0 with
  | GcRaise e => GcRaise e
  | GcOk gc_sum =>
      if decide (motif_length = 0) then GcRaise GcZeroDivisionError
      else
        let gc_content := (gc_sum / inject_Z (Z.of_nat motif_length))%Q in
        let motif_name := replace_tab (motif_id m) in
        GcOk (motif_name, (round4 gc_content, motif_length))
  end.

Fixpoint get_gc_content_loop (motifs : list (Motif M))
    (motif_stats : pdict (Q * nat)) : gc_result (pdict (Q * nat)) :=
  match motifs with
  | [] => GcOk motif_stats
  | m :: motifs' =>
      match gc_stats m with
      | GcRaise e => GcRaise e
      | GcOk (motif_name, stats) =>
          get_gc_content_loop motifs' (setitem motif_stats motif_name stats)
      end
  end.

Definition get_gc_content (motifs : list (Motif M)) : gc_result (pdict (Q * nat)) :=
  get_gc_content_loop motifs [].
End GcContent.



(** ** The identifier of a consensus *)

(** ["_".join(ids)] *)
Fixpoint join_ids (ids : list string) : string :=
  match ids with
  | [] => ""
  | id :: rest =>
      match rest with
      | [] => id
      | _ :: _ => id +:+ "_" +:+ join_ids rest
      end
  end.

(** ** Worked inputs for the pipeline: clusters, output and statistics *)

Module Pipeline.
(** Motifs A and B, scored below zero in every direction. *)
Definition negative_scores : ScoreMap :=
  [("A", [("A", mkScore (-1 # 10) 0 1); ("B", mkScore (-1 # 10) 0 1)]);
   ("B", [("A", mkScore (-1 # 10) 0 1); ("B", mkScore (-1 # 10) 0 1)])].

Definition st2 : state unit := mkState Scenario.heap3 2 [0; 1] [].

(** The motif list [A, B, C] before any cluster is resolved. *)
Definition motif_list3 : list ref := [0; 1; 2].
Definition st0 : state unit := mkState Scenario.heap3 3 [] [].

(** A and B clustered together, C alone. *)
Definition clusters : pdict (list string) :=
  [("Cluster_1", ["A"; "B"]); ("Cluster_2", ["C"])].

(** A cluster naming a motif the list does not hold. *)
Definition stray_clusters : pdict (list string) :=
  [("Cluster_1", ["A"; "B"]); ("Cluster_2", ["D"])].

(** A writer that prints the identifier only. *)
Definition to_text (m : Motif unit) : string := motif_id m.

Definition pwm_values (m : Motif unit) : list Q :=
  [1 # 10; 2 # 10; 3 # 10; 4 # 10; 4 # 10; 3 # 10; 2 # 10; 1 # 10]%Q.
Definition motif_len (m : Motif unit) : nat := 2.
End Pipeline.

(** * Properties *)

(** ** Generic facts: the error monad, ordered dicts, lists *)

Lemma for_each_ext {X S} (f g : S -> X -> result S) (l : list X) (s : S) :
  (∀ s x, f s x = g s x) → for_each f l s = for_each g l s.
Proof.
  intros Hfg. revert s. induction l as [|x l IH]; intros s; simpl; [done|].
  rewrite Hfg. destruct (g s x); simpl; [apply IH|done].
Qed.

Lemma comprehension_ok {X Y} (f : X -> result Y) (g : X -> Y) (l : list X) :
  (∀ x, x ∈ l → f x = Ok (g x)) → comprehension f l = Ok (g <$> l).
Proof.
  induction l as [|x l IH]; intros Hf; simpl; [done|].
  rewrite Hf by left. simpl. rewrite IH; [done|].
  intros y Hy. apply Hf. by right.
Qed.

Lemma getitem_setitem {V} (d : pdict V) k v k' :
  getitem (setitem d k v) k' = if decide (k' = k) then Ok v else getitem d k'.
Proof.
  induction d as [|[k0 v0] d IH]; simpl.
  - by destruct (decide (k' = k)).
  - destruct (decide (k = k0)) as [->|Hne]; simpl.
    + by destruct (decide (k' = k0)).
    + destruct (decide (k' = k0)) as [->|Hne'].
      * by rewrite decide_False by done.
      * apply IH.
Qed.

Lemma getitem_elem {V} (d : pdict V) k :
  k ∈ keys d → ∃ v, getitem d k = Ok v ∧ (k, v) ∈ d.
Proof.
  induction d as [|[k0 v0] d IH]; simpl; intros Hk.
  - by apply elem_of_nil in Hk.
  - destruct (decide (k = k0)) as [->|Hne].
    + exists v0. split; [done|left].
    + apply elem_of_cons in Hk as [?|Hk]; [done|].
      destruct (IH Hk) as (v & Hv & Hin). exists v. split; [done|by right].
Qed.

Lemma getitem_Ok_key {V} (d : pdict V) k v : getitem d k = Ok v → k ∈ keys d.
Proof.
  induction d as [|[k0 v0] d IH]; simpl; [done|].
  destruct (decide (k = k0)) as [->|Hne]; intros H; [left|right; by apply IH].
Qed.

Lemma dict_of_items_snoc {V} (kvs : list (string * V)) kv :
  dict_of_items (kvs ++ [kv]) = setitem (dict_of_items kvs) kv.1 kv.2.
Proof. unfold dict_of_items. by rewrite fold_left_app. Qed.

(** A dict comprehension whose value is a function of the key. *)
Lemma getitem_dict_of_items {V} (g : string -> V) (l : list string) k :
  k ∈ l → getitem (dict_of_items ((fun c => (c, g c)) <$> l)) k = Ok (g k).
Proof.
  induction l as [|c l IH] using rev_ind; intros Hk.
  - by apply elem_of_nil in Hk.
  - rewrite fmap_app. simpl. rewrite dict_of_items_snoc, getitem_setitem. simpl.
    destruct (decide (k = c)) as [->|Hne]; [done|].
    apply IH. apply elem_of_app in Hk as [?|Hk]; [done|].
    by apply list_elem_of_singleton in Hk.
Qed.

Lemma keys_dict_of_items {V} (g : string -> V) (l : list string) k :
  k ∈ keys (dict_of_items ((fun c => (c, g c)) <$> l)) → k ∈ l.
Proof.
  intros Hk. apply getitem_elem in Hk as (v & Hv & _). revert v Hv.
  induction l as [|c l IH] using rev_ind; intros v; [done|].
  rewrite fmap_app. simpl. rewrite dict_of_items_snoc, getitem_setitem. simpl.
  destruct (decide (k = c)) as [->|Hne]; intros Hv.
  - apply elem_of_app. right. left.
  - apply elem_of_app. left. by eapply IH.
Qed.

Lemma index_of_elem x (l : list string) :
  x ∈ l → ∃ i, index_of x l = Some i ∧ l !! i = Some x.
Proof.
  induction l as [|y l IH]; intros Hx.
  - by apply elem_of_nil in Hx.
  - simpl. destruct (decide (x = y)) as [->|Hne]; [by exists 0|].
    apply elem_of_cons in Hx as [?|Hx]; [done|].
    destruct (IH Hx) as (i & -> & Hi). by exists (S i).
Qed.

Lemma index_of_None x (l : list string) : x ∉ l → index_of x l = None.
Proof.
  induction l as [|y l IH]; intros Hx; [done|]. simpl.
  apply not_elem_of_cons in Hx as [Hne Hx].
  rewrite decide_False by done. by rewrite IH.
Qed.

Lemma zip_fmap_self {A B} (f : A -> B) (l : list A) :
  zip l (f <$> l) = (fun x => (x, f x)) <$> l.
Proof. induction l; simpl; [done|by f_equal]. Qed.

Lemma NoDup_fmap_eq {A B} (f : A -> B) (l : list A) x y :
  NoDup (f <$> l) → x ∈ l → y ∈ l → f x = f y → x = y.
Proof.
  induction l as [|z l IH]; intros Hnd Hx Hy Hf.
  - by apply elem_of_nil in Hx.
  - rewrite fmap_cons in Hnd. apply NoDup_cons in Hnd as [Hz Hnd].
    apply elem_of_cons in Hx as [->|Hx]; apply elem_of_cons in Hy as [->|Hy].
    + done.
    + exfalso. apply Hz. rewrite Hf. by apply list_elem_of_fmap_2.
    + exfalso. apply Hz. rewrite <- Hf. by apply list_elem_of_fmap_2.
    + by apply IH.
Qed.

(** ** Numbers *)

Lemma mean2_comm a b : mean2 a b = mean2 b a.
Proof.
  unfold mean2. f_equal. unfold Qplus.
  by rewrite Z.add_comm, Pos.mul_comm.
Qed.

Lemma distance_comm a b : distance a b = distance b a.
Proof. unfold distance. by rewrite mean2_comm. Qed.

(** ** The Score Matrix Builder *)

Lemma getitem2_ok score_dict a b :
  keysets_coincide score_dict → a ∈ keys score_dict → b ∈ keys score_dict →
  ∃ s, getitem2 score_dict a b = Ok s.
Proof.
  intros Hk Ha Hb. unfold getitem2.
  destruct (getitem_elem _ _ Ha) as (inner & -> & Hin). simpl.
  unfold keysets_coincide in Hk. rewrite Forall_forall in Hk.
  apply (Hk _ Hin) in Hb. simpl in Hb.
  destruct (getitem_elem _ _ Hb) as (s & -> & _). by exists s.
Qed.

Lemma cell_setitem2 sd a b v sd' x y :
  setitem2 sd a b v = Ok sd' →
  cell sd' x y = if decide (x = a ∧ y = b) then Some v else cell sd x y.
Proof.
  unfold setitem2, cell. destruct (sd !! a) as [inner|] eqn:Ha; [|done].
  intros [= <-]. destruct (decide (x = a)) as [->|Hx].
  - rewrite lookup_insert_eq. simpl. destruct (decide (y = b)) as [->|Hy].
    + rewrite lookup_insert_eq. by rewrite decide_True.
    + rewrite lookup_insert_ne by done. rewrite decide_False by naive_solver.
      by rewrite Ha.
  - rewrite lookup_insert_ne by done. by rewrite decide_False by naive_solver.
Qed.

Lemma dom_setitem2 sd a b v sd' l :
  setitem2 sd a b v = Ok sd' → is_Some (sd' !! l) ↔ is_Some (sd !! l).
Proof.
  unfold setitem2. destruct (sd !! a) as [inner|] eqn:Ha; [|done].
  intros [= <-]. destruct (decide (l = a)) as [->|Hl].
  - rewrite lookup_insert_eq, Ha. split; eauto.
  - by rewrite lookup_insert_ne.
Qed.

Lemma setitem2_ok sd a b v :
  is_Some (sd !! a) → ∃ sd', setitem2 sd a b v = Ok sd'.
Proof. intros [inner Ha]. unfold setitem2. rewrite Ha. eauto. Qed.

Lemma sim_step_inv score_dict done sd a b :
  keysets_coincide score_dict → sim_inv score_dict done sd →
  a ∈ keys score_dict → b ∈ keys score_dict →
  ∃ sd', sim_step score_dict a (replace_tab a) sd (b, replace_tab b) = Ok sd' ∧
         sim_inv score_dict (done ++ [(a, b)]) sd'.
Proof.
  intros Hk [Hdom Hsym Hdone Hval] Ha Hb. unfold sim_step.
  destruct (getitem2_ok _ a b Hk Ha Hb) as [sab Hab].
  destruct (getitem2_ok _ b a Hk Hb Ha) as [sba Hba].
  rewrite Hab, Hba. simpl.
  fold (distance (similarity sab) (similarity sba)).
  set (v := distance (similarity sab) (similarity sba)).
  assert (Hla : is_Some (sd !! replace_tab a))
    by (apply Hdom; by apply list_elem_of_fmap_2).
  destruct (setitem2_ok sd (replace_tab a) (replace_tab b) v Hla) as [sd1 H1].
  rewrite H1. simpl.
  assert (Hlb : is_Some (sd1 !! replace_tab b)).
  { apply (dom_setitem2 _ _ _ _ _ _ H1), Hdom. by apply list_elem_of_fmap_2. }
  destruct (setitem2_ok sd1 (replace_tab b) (replace_tab a) v Hlb) as [sd2 H2].
  exists sd2. split; [done|].
  assert (Hcell : ∀ x y, cell sd2 x y =
    if decide ((x = replace_tab a ∧ y = replace_tab b) ∨
               (x = replace_tab b ∧ y = replace_tab a))
    then Some v else cell sd x y).
  { intros x y. rewrite (cell_setitem2 _ _ _ _ _ x y H2).
    rewrite (cell_setitem2 _ _ _ _ _ x y H1).
    repeat case_decide; naive_solver. }
  split.
  - intros l. rewrite (dom_setitem2 _ _ _ _ _ l H2), (dom_setitem2 _ _ _ _ _ l H1).
    apply Hdom.
  - intros x y. rewrite !Hcell. rewrite Hsym.
    repeat case_decide; naive_solver.
  - intros a' b' Hin. rewrite Hcell. case_decide; [eauto|].
    apply elem_of_app in Hin as [Hin|Hin]; [by apply Hdone|].
    apply list_elem_of_singleton in Hin as [= -> ->]. naive_solver.
  - intros x y w. rewrite Hcell. case_decide as Hc; [|by apply Hval].
    intros [= <-]. destruct Hc as [[-> ->]|[-> ->]].
    + by exists a, b, sab, sba.
    + exists b, a, sba, sab. repeat split; try done.
      subst v. apply distance_comm.
Qed.

Lemma sim_inner_loop score_dict done sd a (l2 : list string) :
  keysets_coincide score_dict → sim_inv score_dict done sd →
  a ∈ keys score_dict → (∀ b, b ∈ l2 → b ∈ keys score_dict) →
  ∃ sd', for_each (sim_step score_dict a (replace_tab a))
           ((fun x => (x, replace_tab x)) <$> l2) sd = Ok sd' ∧
         sim_inv score_dict (done ++ ((fun b => (a, b)) <$> l2)) sd'.
Proof.
  intros Hk Hinv Ha. revert done sd Hinv.
  induction l2 as [|b l2 IH]; intros done sd Hinv Hl2.
  - exists sd. by rewrite app_nil_r.
  - destruct (sim_step_inv _ done sd a b Hk Hinv Ha) as (sd1 & H1 & Hinv1).
    { apply Hl2. left. }
    rewrite !fmap_cons. cbn [for_each]. rewrite H1. cbn [mbind result_bind].
    destruct (IH _ _ Hinv1) as (sd' & H' & Hinv').
    { intros b' Hb'. apply Hl2. by right. }
    exists sd'. split; [done|]. by rewrite <- app_assoc in Hinv'.
Qed.

Lemma sim_outer_loop score_dict done sd (l1 m2_keys : list string) :
  keysets_coincide score_dict → sim_inv score_dict done sd →
  (∀ a, a ∈ l1 → a ∈ keys score_dict) →
  (∀ b, b ∈ m2_keys → b ∈ keys score_dict) →
  ∃ sd', for_each (fun sd p => for_each (sim_step score_dict p.1 p.2)
                     ((fun x => (x, replace_tab x)) <$> m2_keys) sd)
           ((fun x => (x, replace_tab x)) <$> l1) sd = Ok sd' ∧
         sim_inv score_dict
           (done ++ (a ← l1; (fun b => (a, b)) <$> m2_keys)) sd'.
Proof.
  intros Hk Hinv Hl1 Hm2. revert done sd Hinv.
  induction l1 as [|a l1 IH]; intros done sd Hinv.
  - exists sd. by rewrite app_nil_r.
  - rewrite fmap_cons. cbn [for_each fst snd].
    destruct (sim_inner_loop _ done sd a m2_keys Hk Hinv) as (sd1 & H1 & Hinv1);
      [apply Hl1; left|done|].
    rewrite H1. cbn [mbind result_bind].
    destruct (IH (fun a' Ha' => Hl1 a' (list_elem_of_further _ _ _ Ha')) _ _ Hinv1)
      as (sd' & H' & Hinv').
    exists sd'. split; [done|].
    rewrite bind_cons. by rewrite <- app_assoc in Hinv'.
Qed.

Lemma similarity_dict0_lookup (labels : list string) l :
  (list_to_map ((fun m => (m, ∅)) <$> labels) : gmap string (gmap string Q)) !! l
  = if decide (l ∈ labels) then Some ∅ else None.
Proof.
  induction labels as [|x labels IH].
  - rewrite fmap_nil, list_to_map_nil, lookup_empty.
    case_decide as H; [by apply elem_of_nil in H|done].
  - rewrite fmap_cons, list_to_map_cons. cbn [fst snd].
    destruct (decide (l = x)) as [->|Hne].
    + rewrite lookup_insert_eq. by rewrite decide_True by left.
    + rewrite lookup_insert_ne by done. rewrite IH.
      destruct (decide (l ∈ labels)) as [Hin|Hin].
      * by rewrite decide_True by (by right).
      * rewrite decide_False; [done|]. by apply not_elem_of_cons.
Qed.

Lemma sim_inv_init score_dict :
  sim_inv score_dict []
    (list_to_map ((fun m => (m, ∅)) <$> (replace_tab <$> keys score_dict))).
Proof.
  assert (Hc : ∀ x y, cell (list_to_map ((fun m => (m, ∅)) <$>
                 (replace_tab <$> keys score_dict))) x y = None).
  { intros x y. unfold cell. rewrite similarity_dict0_lookup.
    case_decide; [simpl; apply lookup_empty|done]. }
  split.
  - intros l. rewrite similarity_dict0_lookup. case_decide; [|split; [by intros []|done]].
    split; eauto.
  - intros x y. by rewrite !Hc.
  - intros a b Hin. by apply elem_of_nil in Hin.
  - intros x y v. by rewrite Hc.
Qed.


Lemma lookup2_cell sd a b v : cell sd a b = Some v → lookup2 sd a b = Ok v.
Proof.
  unfold cell, lookup2. destruct (sd !! a) as [inner|]; [|done]. simpl.
  by intros ->.
Qed.

Lemma getitem_map_values {V W} (h : V -> W) (d : pdict V) k v :
  getitem d k = Ok v → getitem (map (fun kv => (kv.1, h kv.2)) d) k = Ok (h v).
Proof.
  induction d as [|[k0 v0] d IH]; simpl; [done|].
  destruct (decide (k = k0)); [by intros [= ->]|done].
Qed.

Lemma keys_map_values {V W} (h : V -> W) (d : pdict V) :
  keys (map (fun kv => (kv.1, h kv.2)) d) = keys d.
Proof. induction d as [|[k0 v0] d IH]; simpl; [done|]. by f_equal. Qed.

(** The table handed to pandas: what each addressed cell holds. *)
Lemma generate_similarity_matrix_cells score_dict :
  keysets_coincide score_dict → score_dict ≠ [] →
  ∃ m2_keys sd df,
    generate_similarity_matrix score_dict = Ok df ∧
    (∀ x, x ∈ m2_keys ↔ x ∈ keys score_dict) ∧
    df_index df = replace_tab <$> m2_keys ∧
    keys (df_columns df) ⊆ replace_tab <$> keys score_dict ∧
    sim_inv score_dict (a ← keys score_dict; (fun b => (a, b)) <$> m2_keys) sd ∧
    ∀ r c, r ∈ replace_tab <$> keys score_dict →
           c ∈ replace_tab <$> keys score_dict →
      ∃ v, cell sd c r = Some v ∧ loc df r c = Some (replace_neg_zero v).
Proof.
  intros Hk Hne. destruct score_dict as [|[k0 inner0] rest]; [done|].
  set (score_dict := (k0, inner0) :: rest) in *.
  assert (Hm2 : ∀ x, x ∈ keys inner0 ↔ x ∈ keys score_dict).
  { unfold keysets_coincide in Hk. rewrite Forall_forall in Hk.
    apply (Hk (k0, inner0)). left. }
  unfold generate_similarity_matrix.
  change (values score_dict) with (inner0 :: values rest).
  cbn [mbind result_bind]. fold score_dict.
  rewrite !zip_fmap_self.
  rewrite (for_each_ext _ (fun sd p => for_each (sim_step score_dict p.1 p.2)
             ((fun x => (x, replace_tab x)) <$> keys inner0) sd))
    by (by intros ? []).
  destruct (sim_outer_loop score_dict [] _ (keys score_dict) (keys inner0) Hk
              (sim_inv_init score_dict)) as (sd & Hloop & Hinv);
    [done|by intros b ?%Hm2|].
  rewrite Hloop. cbn [mbind result_bind]. rewrite app_nil_l in Hinv.
  set (g := fun c r => default 0%Q (cell sd c r)).
  assert (Hpresent : ∀ r c, r ∈ replace_tab <$> keys score_dict →
            c ∈ replace_tab <$> keys score_dict → cell sd c r = Some (g c r)).
  { intros r c (b & -> & Hb)%list_elem_of_fmap (a & -> & Ha)%list_elem_of_fmap.
    destruct (inv_done _ _ _ Hinv a b) as [v Hv].
    { apply list_elem_of_bind. exists a. split; [|done].
      apply list_elem_of_fmap_2. by apply Hm2. }
    unfold g. by rewrite Hv. }
  assert (Hlab : ∀ r, r ∈ replace_tab <$> keys inner0 →
                      r ∈ replace_tab <$> keys score_dict).
  { intros r (b & -> & Hb)%list_elem_of_fmap. apply list_elem_of_fmap_2.
    by apply Hm2. }
  rewrite (comprehension_ok _
             (fun m1 => (m1, g m1 <$> (replace_tab <$> keys inner0)))).
  2:{ intros c Hc.
      rewrite (comprehension_ok _ (g c)); [done|].
      intros r Hr. apply lookup2_cell, Hpresent; auto. }
  cbn [mbind result_bind].
  eexists (keys inner0), sd, _. split; [reflexivity|].
  split; [done|]. split; [done|]. split.
  { intros c Hc. cbn [df_replace_neg_zero df_columns] in Hc.
    rewrite keys_map_values in Hc.
    by apply (keys_dict_of_items
                (fun c => g c <$> (replace_tab <$> keys inner0))). }
  split; [done|].
  intros r c Hr Hc. exists (g c r). split; [by apply Hpresent|].
  unfold loc. cbn [df_replace_neg_zero df_columns df_index].
  rewrite (getitem_map_values _ _ _ _
             (getitem_dict_of_items
                (fun c => g c <$> (replace_tab <$> keys inner0)) _ c Hc)).
  assert (Hr' : r ∈ replace_tab <$> keys inner0).
  { apply list_elem_of_fmap in Hr as (b & -> & Hb). apply list_elem_of_fmap_2.
    by apply Hm2. }
  destruct (index_of_elem _ _ Hr') as (i & -> & Hi). simpl.
  rewrite !list_lookup_fmap. rewrite list_lookup_fmap in Hi.
  destruct (keys inner0 !! i) as [b|]; [|done]. simpl in *.
  by injection Hi as ->.
Qed.

Lemma getitem_not_key {V} (d : pdict V) k :
  k ∉ keys d → getitem d k = Raise (KeyError k).
Proof.
  induction d as [|[k0 v0] d IH]; simpl; [done|].
  intros [Hne Hk]%not_elem_of_cons. rewrite decide_False by done. by apply IH.
Qed.

Lemma loc_outside_columns df r c : c ∉ keys (df_columns df) → loc df r c = None.
Proof. intros Hc. unfold loc. by rewrite getitem_not_key. Qed.

Lemma loc_outside_index df r c : r ∉ df_index df → loc df r c = None.
Proof.
  intros Hr. unfold loc. destruct (getitem _ c); [|done].
  by rewrite index_of_None.
Qed.

Lemma replace_neg_zero_zero x : (x == 0)%Q → replace_neg_zero x = 0%Q.
Proof.
  intros Hx. unfold replace_neg_zero. apply Qeq_bool_iff in Hx. by rewrite Hx.
Qed.


(** C4 — For a non-empty ScoreMap whose second-level key sets all coincide
    with the first-level key set, the builder succeeds, every pair of
    identifiers addresses a cell, and the matrix is exactly symmetric:
    [entry(r, c) = entry(c, r)] for all labels, whatever the two directional
    scores are. *)
Theorem generate_similarity_matrix_symmetric (score_dict : ScoreMap) :
  keysets_coincide score_dict → score_dict ≠ [] →
  ∃ df,
    generate_similarity_matrix score_dict = Ok df ∧
    (∀ i j, i ∈ keys score_dict → j ∈ keys score_dict →
       is_Some (loc df (replace_tab i) (replace_tab j))) ∧
    ∀ r c, loc df r c = loc df c r.
Proof.
  intros Hk Hne.
  destruct (generate_similarity_matrix_cells _ Hk Hne)
    as (m2_keys & sd & df & Hdf & Hm2 & Hidx & Hcols & Hinv & Hloc).
  exists df. split; [done|]. split.
  - intros i j Hi Hj.
    destruct (Hloc (replace_tab i) (replace_tab j)) as (v & _ & ->);
      [by apply list_elem_of_fmap_2..|]. eauto.
  - assert (Hout : ∀ x y, x ∉ replace_tab <$> keys score_dict →
              loc df x y = None ∧ loc df y x = None).
    { intros x y Hx. split.
      - apply loc_outside_index. rewrite Hidx.
        intros (b & -> & Hb)%list_elem_of_fmap. apply Hx.
        apply list_elem_of_fmap_2. by apply Hm2.
      - apply loc_outside_columns. intros Hc. by apply Hx, Hcols. }
    intros r c.
    destruct (decide (r ∈ replace_tab <$> keys score_dict)) as [Hr|Hr];
      [|destruct (Hout r c Hr) as [-> ->]; done].
    destruct (decide (c ∈ replace_tab <$> keys score_dict)) as [Hc|Hc];
      [|destruct (Hout c r Hc) as [-> ->]; done].
    destruct (Hloc r c Hr Hc) as (v & Hv & ->).
    destruct (Hloc c r Hc Hr) as (w & Hw & ->).
    rewrite (inv_sym _ _ _ Hinv) in Hv. congruence.
Qed.

(** ** The Dissimilarity Classifier *)

Lemma all_above_Forall threshold column :
  all_above threshold column = true ↔ Forall (fun x => (threshold < x)%Q) column.
Proof.
  unfold all_above. induction column as [|x column IH]; simpl.
  - split; [constructor|done].
  - rewrite andb_true_iff, IH, Forall_cons. unfold Qgt_bool.
    assert (Bool.eqb (negb (Qle_bool x threshold)) true = true
            ↔ (threshold < x)%Q) as ->; [|done].
    destruct (Qle_bool x threshold) eqn:Hle; simpl.
    + apply Qle_bool_iff in Hle. split; [done|].
      intros Hlt. exfalso. by apply (Qlt_not_le _ _ Hlt).
    + split; [intros _|done]. apply Qnot_le_lt. intros Hle'.
      apply Qle_bool_iff in Hle'. congruence.
Qed.

Lemma dissimilar_step_eq matrix threshold acc col label column :
  df_columns matrix !! col = Some (label, column) →
  dissimilar_step matrix threshold acc col
  = Ok (if all_above threshold column then acc ++ [label] else acc).
Proof.
  intros Hcol. unfold dissimilar_step, iloc_column. rewrite Hcol.
  cbn [mbind result_bind]. by destruct (all_above threshold column).
Qed.

Lemma get_dissimilar_motifs_loop matrix threshold (m s : nat) acc :
  s + m ≤ shape1 matrix →
  for_each (dissimilar_step matrix threshold) (seq s m) acc
  = Ok (acc ++ (List.filter (fun c => all_above threshold c.2)
                  (take m (drop s (df_columns matrix)))).*1).
Proof.
  revert s acc. induction m as [|m IH]; intros s acc Hle.
  - simpl. by rewrite app_nil_r.
  - cbn [seq for_each].
    destruct (df_columns matrix !! s) as [[label column]|] eqn:Hs.
    2:{ apply lookup_ge_None in Hs. unfold shape1 in Hle. lia. }
    rewrite (dissimilar_step_eq _ _ _ _ _ _ Hs). cbn [mbind result_bind].
    rewrite IH by lia.
    rewrite (drop_S _ _ _ Hs). cbn [take List.filter snd].
    destruct (all_above threshold column).
    + cbn [fmap list_fmap fst]. by rewrite <- app_assoc.
    + done.
Qed.

(** C5 — For every matrix and threshold the classifier returns exactly the
    labels, in column order, of the columns at positions
    [0 .. column_count - 2] all of whose entries (the diagonal included)
    strictly exceed the threshold.  The last column is never read: the result
    does not depend on it, and, column labels being distinct, its label is not
    in the result. *)
Theorem get_dissimilar_motifs_spec (matrix : DataFrame) (threshold : Q) :
  get_dissimilar_motifs matrix threshold
  = Ok (List.filter (fun c => all_above threshold c.2)
          (take (shape1 matrix - 1) (df_columns matrix))).*1
  ∧ (∀ res label, get_dissimilar_motifs matrix threshold = Ok res →
       label ∈ res ↔
       ∃ k column, k < shape1 matrix - 1 ∧
         df_columns matrix !! k = Some (label, column) ∧
         Forall (fun x => (threshold < x)%Q) column)
  ∧ (∀ cols last last',
       df_columns matrix = cols ++ [last] →
       get_dissimilar_motifs (mkDataFrame (df_index matrix) (cols ++ [last']))
         threshold
       = get_dissimilar_motifs matrix threshold)
  ∧ (NoDup (keys (df_columns matrix)) →
     ∀ res label column,
       get_dissimilar_motifs matrix threshold = Ok res →
       df_columns matrix !! (shape1 matrix - 1) = Some (label, column) →
       label ∉ res).
Proof.
  assert (Hres : ∀ m, get_dissimilar_motifs m threshold
            = Ok (List.filter (fun c => all_above threshold c.2)
                    (take (shape1 m - 1) (df_columns m))).*1).
  { intros m. unfold get_dissimilar_motifs.
    rewrite get_dissimilar_motifs_loop by lia. by rewrite drop_0. }
  assert (Hmem : ∀ res label, get_dissimilar_motifs matrix threshold = Ok res →
       label ∈ res ↔
       ∃ k column, k < shape1 matrix - 1 ∧
         df_columns matrix !! k = Some (label, column) ∧
         Forall (fun x => (threshold < x)%Q) column).
  { intros res label. rewrite Hres. intros [= <-].
    rewrite list_elem_of_fmap. split.
    - intros ([l column] & -> & Hin). apply list_elem_of_In in Hin.
      apply filter_In in Hin as [Hin Hab]. apply list_elem_of_In in Hin.
      apply list_elem_of_lookup in Hin as [k Hk].
      apply lookup_take_Some in Hk as [Hk Hlt].
      exists k, column. by rewrite <- all_above_Forall.
    - intros (k & column & Hlt & Hk & Hall). exists (label, column).
      split; [done|]. apply list_elem_of_In, filter_In. split.
      + apply list_elem_of_In, list_elem_of_lookup. exists k.
        by apply lookup_take_Some.
      + by apply all_above_Forall. }
  split; [apply Hres|]. split; [apply Hmem|]. split.
  - intros cols last last' Hcols. rewrite !Hres. unfold shape1.
    cbn [df_columns]. rewrite Hcols, !length_app. simpl.
    replace (length cols + 1 - 1) with (length cols) by lia.
    by rewrite !take_app_length.
  - intros Hnd res label column Hr Hlast Hin.
    apply (Hmem _ _ Hr) in Hin as (k & column' & Hlt & Hk & _).
    assert (Hkk : keys (df_columns matrix) !! k = Some label)
      by exact (eq_trans (list_lookup_fmap fst _ k) (f_equal (fmap fst) Hk)).
    assert (Hll : keys (df_columns matrix) !! (shape1 matrix - 1) = Some label)
      by exact (eq_trans (list_lookup_fmap fst _ _) (f_equal (fmap fst) Hlast)).
    pose proof (NoDup_lookup _ _ _ _ Hnd Hkk Hll). lia.
Qed.

(** ** The grouping step of the Hierarchical Clusterer *)

Lemma for_each_app {X S} (f : S -> X -> result S) (l1 l2 : list X) (s : S) :
  for_each f (l1 ++ l2) s = (s' ← for_each f l1 s; for_each f l2 s').
Proof.
  revert s. induction l1 as [|x l1 IH]; intros s; simpl; [done|].
  destruct (f s x); simpl; [apply IH|done].
Qed.

Lemma cluster_key_inj n n' : cluster_key n = cluster_key n' → n = n'.
Proof. unfold cluster_key. intros H%(inj (String.app _)). by apply (inj pretty). Qed.

Lemma NoDup_keys_setitem {V} (d : pdict V) k v :
  NoDup (keys d) → NoDup (keys (setitem d k v)).
Proof.
  induction d as [|[k0 v0] d IH]; simpl; intros Hnd.
  - apply NoDup_singleton.
  - apply NoDup_cons in Hnd as [Hk0 Hnd].
    destruct (decide (k = k0)) as [->|Hne]; simpl.
    + by apply NoDup_cons.
    + apply NoDup_cons. split; [|by apply IH].
      intros Hin. apply getitem_elem in Hin as (w & Hw & _).
      rewrite getitem_setitem in Hw. rewrite decide_False in Hw by done.
      by apply Hk0, (getitem_Ok_key _ _ w).
Qed.




(** ** The Consensus Builder *)

Lemma list_remove_length x l l' :
  list_remove x l = Ok l' → length l = S (length l').
Proof.
  revert l'. induction l as [|y l IH]; intros l'; simpl; [done|].
  destruct (decide (x = y)) as [->|Hne]; [by intros [= ->]|].
  destruct (list_remove x l) as [l''|] eqn:Hr; [|done].
  simpl. intros [= <-]. simpl. f_equal. by apply IH.
Qed.

(** Removing the first [x] keeps whatever follows a later occurrence. *)
Lemma list_remove_keeps x y l1 rest :
  y ∈ rest → ∃ l', list_remove x (l1 ++ x :: rest) = Ok l' ∧ y ∈ l'.
Proof.
  intros Hy. induction l1 as [|z l1 (l' & IH & Hin)]; simpl.
  - rewrite decide_True by done. eauto.
  - destruct (decide (x = z)) as [->|Hne].
    + eexists. split; [done|]. apply elem_of_app. right. by right.
    + rewrite IH. simpl. eexists. split; [done|]. by right.
Qed.

Lemma list_remove_elem x l : x ∈ l → ∃ l', list_remove x l = Ok l'.
Proof.
  induction l as [|y l IH]; intros Hx; [by apply elem_of_nil in Hx|]. simpl.
  destruct (decide (x = y)) as [->|Hne]; [eauto|].
  apply elem_of_cons in Hx as [?|Hx]; [done|].
  destruct (IH Hx) as [l' ->]. simpl. eauto.
Qed.

(** A pair of [combinations2 l] is two positions of [l], in order. *)
Lemma elem_of_combinations2 {A} (l : list A) x y :
  (x, y) ∈ combinations2 l → ∃ l1 l2 l3, l = l1 ++ x :: l2 ++ y :: l3.
Proof.
  induction l as [|z l IH]; simpl; intros Hin; [by apply elem_of_nil in Hin|].
  apply elem_of_app in Hin as [Hin|Hin].
  - apply list_elem_of_fmap in Hin as (y' & [= -> ->] & Hy).
    apply list_elem_of_split in Hy as (l2 & l3 & ->). by exists [], l2, l3.
  - destruct (IH Hin) as (l1 & l2 & l3 & ->). by exists (z :: l1), l2, l3.
Qed.

Lemma combinations2_nonempty {A} (l : list A) :
  2 ≤ length l → combinations2 l ≠ [].
Proof. destruct l as [|x [|y l]]; simpl; [lia|lia|done]. Qed.

Section ConsensusBuilderProofs.
Context {M : Type}.
Variable average_motifs : Motif M -> Motif M -> Z -> Z -> result (Motif M).
Variable get_all_scores : list (Motif M) -> result ScoreMap.

Local Abbreviation merge_level := (merge_level average_motifs).
Local Abbreviation generate_consensus_motif_rec :=
  (generate_consensus_motif_rec average_motifs get_all_scores).
Local Abbreviation generate_consensus_motif :=
  (generate_consensus_motif average_motifs get_all_scores).

Lemma select_step_eq (heap : ref -> Motif M) sd sel p s :
  pair_score heap sd p = Ok s →
  select_step heap sd sel p =
  Ok (if Qle_bool (max_score sel) (similarity s)
      then mkSelection (similarity s) (Some p) (Some s)
      else mkSelection (max_score sel) (merge sel) (Some s)).
Proof.
  intros Hs. unfold select_step. rewrite Hs. cbn [mbind result_bind].
  by destruct (Qle_bool _ _).
Qed.

(** The selection loop from any starting point: either nothing replaced
    the running maximum, or the pair kept is the last of the greatest. *)
Lemma select_loop (heap : ref -> Motif M) sd ps sel :
  (∀ p, p ∈ ps → ∃ s, pair_score heap sd p = Ok s) →
  ∃ sel', for_each (select_step heap sd) ps sel = Ok sel' ∧
    ((merge sel' = merge sel ∧ max_score sel' = max_score sel ∧
      ∀ p s, p ∈ ps → pair_score heap sd p = Ok s →
             (similarity s < max_score sel)%Q)
     ∨ (∃ pre p s post,
          ps = pre ++ p :: post ∧ merge sel' = Some p ∧
          pair_score heap sd p = Ok s ∧ max_score sel' = similarity s ∧
          (max_score sel <= similarity s)%Q ∧
          (∀ p' s', p' ∈ pre → pair_score heap sd p' = Ok s' →
                    (similarity s' <= similarity s)%Q) ∧
          (∀ p' s', p' ∈ post → pair_score heap sd p' = Ok s' →
                    (similarity s' < similarity s)%Q))).
Proof.
  revert sel. induction ps as [|p ps IH]; intros sel Hok.
  - exists sel. split; [done|]. left. repeat split.
    intros p s Hp. by apply elem_of_nil in Hp.
  - destruct (Hok p) as [s Hs]; [left|].
    cbn [for_each]. rewrite (select_step_eq _ _ _ _ _ Hs).
    cbn [mbind result_bind].
    destruct (IH (if Qle_bool (max_score sel) (similarity s)
                  then mkSelection (similarity s) (Some p) (Some s)
                  else mkSelection (max_score sel) (merge sel) (Some s)))
      as (sel' & Hloop & Hrel).
    { intros p' Hp'. apply Hok. by right. }
    exists sel'. split; [done|].
    destruct (Qle_bool (max_score sel) (similarity s)) eqn:Hle.
    + apply Qle_bool_iff in Hle. right.
      destruct Hrel as [(Hm & Hmax & Hlt)|
                        (pre & p' & s' & post & -> & Hm & Hs' & Hmax & Hge & Hpre & Hpost)].
      * exists [], p, s, ps. cbn in Hm, Hmax, Hlt. repeat split; try done.
        intros p' s' Hp'. by apply elem_of_nil in Hp'.
      * exists (p :: pre), p', s', post. cbn in Hge.
        repeat split; try done; [by eapply Qle_trans|].
        intros p0 s0 [->|Hp0]%elem_of_cons Hs0; [|by eapply Hpre].
        rewrite Hs in Hs0. by injection Hs0 as <-.
    + assert (Hlt : (similarity s < max_score sel)%Q).
      { apply Qnot_le_lt. intros Hle'%Qle_bool_iff. congruence. }
      destruct Hrel as [(Hm & Hmax & Hlts)|
                        (pre & p' & s' & post & -> & Hm & Hs' & Hmax & Hge & Hpre & Hpost)].
      * left. cbn in Hm, Hmax, Hlts. repeat split; try done.
        intros p0 s0 [->|Hp0]%elem_of_cons Hs0; [|by eapply Hlts].
        rewrite Hs in Hs0. by injection Hs0 as <-.
      * right. exists (p :: pre), p', s', post. cbn in Hge.
        repeat split; try done.
        intros p0 s0 [->|Hp0]%elem_of_cons Hs0; [|by eapply Hpre].
        rewrite Hs in Hs0. injection Hs0 as <-.
        apply Qlt_le_weak. by eapply Qlt_le_trans.
Qed.

(** After the loop, [score] is the entry of the pair enumerated last. *)
Lemma select_loop_score (heap : ref -> Motif M) sd ps p sel sel' :
  for_each (select_step heap sd) (ps ++ [p]) sel = Ok sel' →
  ∃ s, pair_score heap sd p = Ok s ∧ score sel' = Some s.
Proof.
  rewrite for_each_app.
  destruct (for_each (select_step heap sd) ps sel) as [sel1|]; [|done].
  cbn [mbind result_bind for_each]. unfold select_step.
  destruct (pair_score heap sd p) as [s|]; [|done].
  cbn [mbind result_bind]. intros Hsel. exists s. split; [done|].
  destruct (Qle_bool _ _); by injection Hsel as <-.
Qed.

(** Whenever a level completes, one motif was appended and two were
    removed, and one averaging call was logged. *)
Lemma merge_level_shape (st st' : state M) sd :
  merge_level st sd = Ok st' →
  ∃ merge_1 merge_2 l1,
    list_remove merge_1 (motifs st ++ [next st]) = Ok l1 ∧
    list_remove merge_2 l1 = Ok (motifs st') ∧
    S (length (motifs st')) = length (motifs st) ∧
    length (trace st') = S (length (trace st)) ∧
    next st' = S (next st).
Proof.
  unfold merge_level.
  destruct (select_pair _ _ _) as [sel|]; [|done]. cbn [mbind result_bind].
  destruct (merge sel) as [[merge_1 merge_2]|]; [|done]. cbn [mbind result_bind].
  destruct (score sel) as [s|]; [|done]. cbn [mbind result_bind].
  destruct (average_motifs _ _ _ _) as [average_motif|]; [|done].
  cbn [mbind result_bind].
  destruct (list_remove merge_1 _) as [l1|] eqn:H1; [|done].
  cbn [mbind result_bind].
  destruct (list_remove merge_2 l1) as [l2|] eqn:H2; [|done].
  cbn [mbind result_bind]. intros [= <-]. cbn [motifs trace next].
  exists merge_1, merge_2, l1. repeat split; try done.
  - apply list_remove_length in H1, H2. rewrite length_app in H1.
    simpl in H1. lia.
  - rewrite length_app. simpl. lia.
Qed.

(** A level on a list of two or more motifs, all of whose pairs the table
    scores with a non-negative similarity: the pair that is selected, the
    arguments the averaging call receives, and what the level does with the
    outcome of that call. *)
Lemma merge_level_ok (st : state M) sd :
  2 ≤ length (motifs st) → scores_cover sd (heap st <$> motifs st) →
  ∃ pre merge_1 merge_2 post s ps_init p_last s_last l,
    combinations2 (motifs st) = pre ++ (merge_1, merge_2) :: post ∧
    pair_score (heap st) sd (merge_1, merge_2) = Ok s ∧
    (∀ p' s', p' ∈ pre → pair_score (heap st) sd p' = Ok s' →
              (similarity s' <= similarity s)%Q) ∧
    (∀ p' s', p' ∈ post → pair_score (heap st) sd p' = Ok s' →
              (similarity s' < similarity s)%Q) ∧
    combinations2 (motifs st) = ps_init ++ [p_last] ∧
    pair_score (heap st) sd p_last = Ok s_last ∧
    merge_level st sd
    = (average_motif ← average_motifs (heap st merge_1) (heap st merge_2)
                         (offset s_last) (orientation s_last);
       Ok (mkState
             (fun x => if decide (x = next st)
                       then mkMotif (motif_id (heap st merge_1) +:+ "_"
                                     +:+ motif_id (heap st merge_2))
                                    (pwm average_motif)
                       else heap st x)
             (S (next st)) l
             (trace st ++ [EvAverage merge_1 merge_2 (offset s_last)
                             (orientation s_last)]))).
Proof.
  intros Hlen Hcover.
  assert (Hpairs : ∀ p, p ∈ combinations2 (motifs st) →
            ∃ s, pair_score (heap st) sd p = Ok s ∧ (0 <= similarity s)%Q).
  { intros [x y] Hp. apply elem_of_combinations2 in Hp as (l1 & l2 & l3 & Hl).
    apply Hcover; apply list_elem_of_fmap_2; rewrite Hl; set_solver. }
  destruct (select_loop (heap st) sd (combinations2 (motifs st))
              (mkSelection 0 None None)) as (sel & Hsel & Hrel).
  { intros p Hp. destruct (Hpairs p Hp) as (s & Hs & _). eauto. }
  pose proof (combinations2_nonempty _ Hlen) as Hne.
  destruct Hrel as [(_ & _ & Hlt)|
                    (pre & [merge_1 merge_2] & s & post & Hsplit & Hm & Hs & _ & _ & Hpre & Hpost)].
  { exfalso. destruct (combinations2 (motifs st)) as [|p ps]; [done|].
    destruct (Hpairs p) as (s & Hs & Hge); [left|].
    apply (Qlt_not_le _ _ (Hlt p s (list_elem_of_here _ _) Hs) Hge). }
  destruct (exists_last Hne) as (ps_init & p_last & Hlast).
  pose proof Hsel as Hscore. rewrite Hlast in Hscore.
  apply select_loop_score in Hscore as (s_last & Hs_last & Hscore).
  assert (Hin : (merge_1, merge_2) ∈ combinations2 (motifs st))
    by (rewrite Hsplit; set_solver).
  apply elem_of_combinations2 in Hin as (l1 & l2 & l3 & Hl).
  destruct (list_remove_keeps merge_1 merge_2 l1 ((l2 ++ merge_2 :: l3) ++ [next st]))
    as (l' & Hr1 & Hin2); [set_solver|].
  destruct (list_remove_elem _ _ Hin2) as [l'' Hr2].
  exists pre, merge_1, merge_2, post, s, ps_init, p_last, s_last, l''.
  repeat split; try done.
  unfold merge_level. unfold select_pair. rewrite Hsel.
  cbn [mbind result_bind]. rewrite Hm, Hscore. cbn [mbind result_bind].
  destruct (average_motifs _ _ _ _) as [average_motif|e]; [|done].
  cbn [mbind result_bind].
  assert (Heq : motifs st ++ [next st]
                = l1 ++ merge_1 :: (l2 ++ merge_2 :: l3) ++ [next st])
    by (by rewrite Hl, <- app_assoc).
  rewrite Heq, Hr1.
  cbn [mbind result_bind]. by rewrite Hr2.
Qed.

(** The recursion on a list of [S k] motifs, when the two library calls
    return and the score tables answer every pair: [k] levels, then the base
    case. *)
Lemma generate_consensus_motif_rec_total (k : nat) :
  (∀ a b pos orientation, ∃ m, average_motifs a b pos orientation = Ok m) →
  (∀ ms, ∃ sd, get_all_scores ms = Ok sd ∧ scores_cover sd ms) →
  ∀ depth (st : state M) sd,
    length (motifs st) = S k → S k ≤ depth →
    scores_cover sd (heap st <$> motifs st) →
    ∃ r st', generate_consensus_motif_rec depth st sd = Ok (r, st') ∧
             motifs st' = [r] ∧
             length (trace st') = length (trace st) + k ∧
             next st' = next st + k.
Proof.
  intros Havg Hgas. induction k as [|k IH]; intros depth st sd Hlen Hdepth Hcover.
  - destruct depth as [|depth]; [lia|]. cbn [generate_consensus_motif_rec].
    rewrite decide_True by done.
    destruct (motifs st) as [|r [|? ?]] eqn:Hm; try done.
    exists r, st. cbn. rewrite Hm. repeat split; try done; lia.
  - destruct depth as [|depth]; [lia|]. cbn [generate_consensus_motif_rec].
    rewrite decide_False by lia.
    destruct (merge_level_ok st sd)
      as (_ & m1 & m2 & _ & _ & _ & _ & s_last & l & _ & _ & _ & _ & _ & _ & Hlevel);
      [lia|done|].
    destruct (Havg (heap st m1) (heap st m2) (offset s_last) (orientation s_last))
      as [m Hm].
    rewrite Hm in Hlevel. cbn [mbind result_bind] in Hlevel.
    rewrite Hlevel. cbn [mbind result_bind].
    destruct (merge_level_shape _ _ _ Hlevel)
      as (_ & _ & _ & _ & _ & Hshrink & Htrace & Hnext).
    match goal with
    | |- context [get_all_scores ?ms] =>
        destruct (Hgas ms) as (sd' & Hsd' & Hcover')
    end.
    rewrite Hsd'. cbn [mbind result_bind].
    match type of Hlevel with
    | _ = Ok ?st1 =>
        destruct (IH depth st1 sd')
          as (r & st'' & Hrec & Hone & Htrace' & Hnext'); [lia|lia|done|]
    end.
    exists r, st''. repeat split; try done; lia.
Qed.

(** The exceptions a level can raise. *)
Lemma getitem_Raise {V} (d : pdict V) k e :
  getitem d k = Raise e → e = KeyError k.
Proof.
  induction d as [|[k0 v0] d IH]; simpl; [by intros [= <-]|].
  by destruct (decide (k = k0)).
Qed.

Lemma list_remove_Raise x l e : list_remove x l = Raise e → e = ValueError.
Proof.
  induction l as [|y l IH]; simpl; [by intros [= <-]|].
  destruct (decide (x = y)); [done|].
  destruct (list_remove x l); [done|]. simpl. intros [= <-]. by apply IH.
Qed.

Lemma select_step_Raise (heap : ref -> Motif M) sd sel p e :
  select_step heap sd sel p = Raise e → ∃ k, e = KeyError k.
Proof.
  unfold select_step, pair_score, getitem2.
  destruct (getitem sd (motif_id (heap p.1))) as [inner|e1] eqn:H1;
    cbn [mbind result_bind].
  2:{ intros [= <-]. apply getitem_Raise in H1. eauto. }
  destruct (getitem inner (motif_id (heap p.2))) as [s|e2] eqn:H2;
    cbn [mbind result_bind].
  2:{ intros [= <-]. apply getitem_Raise in H2. eauto. }
  by destruct (Qle_bool _ _).
Qed.

Lemma select_pair_Raise (heap : ref -> Motif M) sd ps sel e :
  for_each (select_step heap sd) ps sel = Raise e → ∃ k, e = KeyError k.
Proof.
  revert sel. induction ps as [|p ps IH]; intros sel; cbn [for_each]; [done|].
  destruct (select_step heap sd sel p) as [sel1|e1] eqn:Hstep;
    cbn [mbind result_bind]; [apply IH|].
  intros [= <-]. by eapply select_step_Raise.
Qed.

(** The call stack granted by [generate_consensus_motif] is enough: with
    more frames than the list has motifs, the result does not depend on the
    number of frames. *)
Lemma generate_consensus_motif_rec_depth depth depth' (st : state M) sd :
  length (motifs st) < depth → length (motifs st) < depth' →
  generate_consensus_motif_rec depth st sd
  = generate_consensus_motif_rec depth' st sd.
Proof.
  revert depth' st sd. induction depth as [|depth IH];
    intros depth' st sd Hlt Hlt'; [lia|].
  destruct depth' as [|depth']; [lia|].
  cbn [generate_consensus_motif_rec].
  destruct (decide (length (motifs st) = 1)) as [Hone|Hne]; [done|].
  destruct (merge_level st sd) as [st'|e] eqn:Hlevel; cbn [mbind result_bind];
    [|done].
  destruct (get_all_scores _) as [sd'|e]; cbn [mbind result_bind]; [|done].
  destruct (merge_level_shape _ _ _ Hlevel) as (_ & _ & _ & _ & _ & Hs & _).
  apply IH; lia.
Qed.


(** C7 — On a working list that holds exactly one motif the builder
    returns the reference held by the list: the same object, with the store
    (hence its identifier and matrix), the list and the log untouched. *)
Theorem generate_consensus_motif_single (heap : ref -> Motif M) (next r : ref)
    (trace : list event) (sd : ScoreMap) :
  generate_consensus_motif (mkState heap next [r] trace) sd
  = Ok (r, mkState heap next [r] trace).
Proof. reflexivity. Qed.

(** The shape of the recursion: every level that completes appends one
    motif, removes two and logs one averaging call; and when the two library
    calls return and the score tables answer every pair with a non-negative
    similarity, a working list of [k >= 1] motifs is reduced to the returned
    motif alone in exactly [k - 1] merges. *)
Lemma generate_consensus_motif_completes (st : state M) (sd : ScoreMap) :
  (∀ a b pos orientation, ∃ m, average_motifs a b pos orientation = Ok m) →
  (∀ ms, ∃ sd, get_all_scores ms = Ok sd ∧ scores_cover sd ms) →
  scores_cover sd (heap st <$> motifs st) →
  1 ≤ length (motifs st) →
  (∀ st0 sd0 st1, merge_level st0 sd0 = Ok st1 →
     ∃ merge_1 merge_2 l1,
       list_remove merge_1 (motifs st0 ++ [next st0]) = Ok l1 ∧
       list_remove merge_2 l1 = Ok (motifs st1) ∧
       S (length (motifs st1)) = length (motifs st0) ∧
       length (trace st1) = S (length (trace st0))) ∧
  ∃ r st',
    generate_consensus_motif st sd = Ok (r, st') ∧
    motifs st' = [r] ∧
    length (trace st') = length (trace st) + (length (motifs st) - 1).
Proof.
  intros Havg Hgas Hcover Hlen. split.
  - intros st0 sd0 st1 Hlevel.
    destruct (merge_level_shape _ _ _ Hlevel)
      as (merge_1 & merge_2 & l1 & H1 & H2 & Hs & Ht & _).
    by exists merge_1, merge_2, l1.
  - destruct (generate_consensus_motif_rec_total (length (motifs st) - 1) Havg Hgas
                (S (length (motifs st))) st sd) as (r & st' & Hrec & Hone & Ht & _);
      [lia|lia|done|].
    by exists r, st'.
Qed.

(** C9 — On an empty working list the builder does not return: the loop
    over pairs binds nothing and the averaging statement raises
    [UnboundLocalError] for [merge_1]. *)
Theorem generate_consensus_motif_empty (heap : ref -> Motif M) (next : ref)
    (trace : list event) (sd : ScoreMap) :
  generate_consensus_motif (mkState heap next [] trace) sd
  = Raise (UnboundLocalError "merge_1").
Proof. reflexivity. Qed.
(** *** Materialising a cluster *)

Lemma has_tab_replace_tab s : has_tab (replace_tab s) = false.
Proof.
  induction s as [|c s IH]; simpl; [done|]. rewrite IH.
  destruct (Ascii.eqb c tab) eqn:Hc; [done|]. by rewrite Hc.
Qed.

Lemma replace_tab_id s : has_tab s = false → replace_tab s = s.
Proof.
  induction s as [|c s IH]; simpl; [done|].
  intros [Hc Hs]%orb_false_iff. rewrite Hc. f_equal. by apply IH.
Qed.

Lemma generate_similarity_matrix_index score_dict df :
  generate_similarity_matrix score_dict = Ok df →
  ∃ m2_keys, df_index df = replace_tab <$> m2_keys.
Proof.
  unfold generate_similarity_matrix.
  destruct (values score_dict) as [|inner ?]; [done|]. cbn [mbind result_bind].
  destruct (for_each _ _ _) as [sd|]; [|done]. cbn [mbind result_bind].
  destruct (comprehension _ _) as [items|]; [|done]. cbn [mbind result_bind].
  intros [= <-]. by exists (keys inner).
Qed.

Lemma for_each_invariant {X S} (I : S -> Prop) (f : S -> X -> result S) l s s' :
  I s → (∀ s x s', I s → f s x = Ok s' → I s') →
  for_each f l s = Ok s' → I s'.
Proof.
  intros Hs Hstep. revert s Hs. induction l as [|x l IH]; intros s Hs; simpl.
  - by intros [= <-].
  - destruct (f s x) as [s1|] eqn:Hf; [|done]. simpl. apply IH. by eapply Hstep.
Qed.

(** Cluster member lists hold row labels only. *)
Lemma get_cluster_members labels label_names cluster key value x :
  get_cluster labels label_names = Ok cluster →
  getitem cluster key = Ok value → x ∈ value → x ∈ label_names.
Proof.
  intros Hget. revert key value x. unfold get_cluster in Hget.
  refine (for_each_invariant
            (fun cl => ∀ key value x, getitem cl key = Ok value →
                                      x ∈ value → x ∈ label_names)
            _ _ _ _ _ _ Hget); [done|].
  intros cl i cl' Hcl. unfold cluster_step, list_index.
  destruct (labels !! i) as [n|]; [|done]. cbn [mbind result_bind].
  destruct (label_names !! i) as [name|] eqn:Hname; [|done].
  cbn [mbind result_bind]. intros [= <-] key value x.
  unfold defaultdict_append. rewrite getitem_setitem.
  destruct (decide (key = cluster_key n)) as [->|Hne]; [|apply Hcl].
  intros [= <-] [Hx|Hx]%elem_of_app.
  - destruct (getitem cl (cluster_key n)) as [members|] eqn:Hm.
    + by eapply Hcl.
    + by apply elem_of_nil in Hx.
  - apply list_elem_of_singleton in Hx as ->.
    apply list_elem_of_lookup. eauto.
Qed.

(** C10 — Along the pipeline (distance matrix, grouping of its row labels,
    materialisation of a cluster), every member list holds identifiers
    without tabs, while membership is tested on the raw identifier: a motif
    whose identifier contains a tab is in no cluster's working list, and a
    cluster all of whose members have a tab in their identifier hands the
    recursive merge an empty working list, on which it raises. *)
Theorem cluster_motifs_excludes_tabbed (heap : ref -> Motif M)
    (motif_list : list ref) (score_dict : ScoreMap) (df : DataFrame)
    (labels : list Z) (cluster : pdict (list string))
    (key : string) (value : list string) :
  generate_similarity_matrix score_dict = Ok df →
  get_cluster labels (df_index df) = Ok cluster →
  getitem cluster key = Ok value →
  Forall (fun x => has_tab x = false) value ∧
  (∀ m, has_tab (motif_id (heap m)) = true →
        m ∉ cluster_motifs heap motif_list value) ∧
  ((∀ m, m ∈ motif_list → replace_tab (motif_id (heap m)) ∈ value →
         has_tab (motif_id (heap m)) = true) →
   cluster_motifs heap motif_list value = [] ∧
   ∀ next trace sd,
     generate_consensus_motif
       (mkState heap next (cluster_motifs heap motif_list value) trace) sd
     = Raise (UnboundLocalError "merge_1")).
Proof.
  intros Hdf Hcl Hvalue.
  destruct (generate_similarity_matrix_index _ _ Hdf) as [m2_keys Hidx].
  assert (Hclean : Forall (fun x => has_tab x = false) value).
  { apply Forall_forall. intros x Hx.
    pose proof (get_cluster_members _ _ _ _ _ _ Hcl Hvalue Hx) as Hin.
    rewrite Hidx in Hin. apply list_elem_of_fmap in Hin as (k & -> & _).
    apply has_tab_replace_tab. }
  assert (Hnot : ∀ m, has_tab (motif_id (heap m)) = true →
                      m ∉ cluster_motifs heap motif_list value).
  { intros m Htab [Hin _]%list_elem_of_filter.
    rewrite Forall_forall in Hclean. rewrite (Hclean _ Hin) in Htab. done. }
  split; [done|]. split; [done|]. intros Hall.
  assert (Hnil : cluster_motifs heap motif_list value = []).
  { apply elem_of_nil_inv. intros m Hm. pose proof Hm as Hm'.
    apply list_elem_of_filter in Hm as [Hid Hin].
    apply (Hnot m); [|done]. apply Hall; [done|].
    rewrite Forall_forall in Hclean. by rewrite replace_tab_id by auto. }
  split; [done|]. intros next trace sd. by rewrite Hnil.
Qed.

(** Seen from the loop over clusters: a cluster whose working list holds
    one motif is resolved to that very reference, with the store untouched. *)
Lemma consensus_step_single (motif_list : list ref) sd consensus_motifs
    (st : state M) cluster value r :
  cluster_motifs (heap st) motif_list value = [r] →
  consensus_step average_motifs get_all_scores motif_list sd
    (consensus_motifs, st) (cluster, value)
  = Ok (setitem consensus_motifs cluster r,
        mkState (heap st) (next st) [r] (trace st)).
Proof. intros Hwork. unfold consensus_step. by rewrite Hwork. Qed.

(** A cluster whose working list is empty stops the loop over clusters. *)
Lemma consensus_step_empty (motif_list : list ref) sd consensus_motifs
    (st : state M) cluster value :
  cluster_motifs (heap st) motif_list value = [] →
  consensus_step average_motifs get_all_scores motif_list sd
    (consensus_motifs, st) (cluster, value)
  = Raise (UnboundLocalError "merge_1").
Proof. intros Hwork. unfold consensus_step. by rewrite Hwork. Qed.
End ConsensusBuilderProofs.

(** One level on A, B, C with sim(A,B) = 0.9, sim(A,C) = 0.2,
    sim(B,C) = 0.3, whatever the averaging primitive does. *)
Lemma merge_level_ABC
    (average_motifs : Motif unit -> Motif unit -> Z -> Z -> result (Motif unit)) :
  merge_level average_motifs Scenario.st3 Scenario.score_dict3
  = (average_motif ← average_motifs (Scenario.heap3 0) (Scenario.heap3 1) 7%Z (-1)%Z;
     Ok (mkState
           (fun x => if decide (x = 3) then mkMotif "A_B" (pwm average_motif)
                     else Scenario.heap3 x)
           4 [2; 3] [EvAverage 0 1 7 (-1)])).
Proof. reflexivity. Qed.

(** C1 — The builder on A, B, C with sim(A,B) = 0.9, sim(A,C) = 0.2,
    sim(B,C) = 0.3: the pair (A, B) is selected and the new motif is named
    ["A_B"], but the averaging call receives offset [7] and orientation [-1],
    which the table records for the pair enumerated last, (B, C); for the
    selected pair it records offset [1] and orientation [1].  The new motif
    holds what that call returns, and an exception of that call is the
    level's. *)
Theorem merge_level_stale_score
    (average_motifs : Motif unit -> Motif unit -> Z -> Z -> result (Motif unit)) :
  (∀ average_motif,
     average_motifs (Scenario.heap3 0) (Scenario.heap3 1) 7%Z (-1)%Z
     = Ok average_motif →
     ∃ st',
       merge_level average_motifs Scenario.st3 Scenario.score_dict3 = Ok st' ∧
       trace st' = [EvAverage 0 1 7 (-1)] ∧
       motif_id (heap st' 3) = "A_B" ∧
       pwm (heap st' 3) = pwm average_motif ∧
       motifs st' = [2; 3]) ∧
  (∀ e,
     average_motifs (Scenario.heap3 0) (Scenario.heap3 1) 7%Z (-1)%Z = Raise e →
     merge_level average_motifs Scenario.st3 Scenario.score_dict3 = Raise e) ∧
  pair_score Scenario.heap3 Scenario.score_dict3 (0, 1)
  = Ok (mkScore (9 # 10) 1 1) ∧
  pair_score Scenario.heap3 Scenario.score_dict3 (1, 2)
  = Ok (mkScore (3 # 10) 7 (-1)).
Proof.
  rewrite merge_level_ABC. split; [|split; [|done]].
  - intros average_motif ->. eexists. split; [reflexivity|]. by repeat split.
  - by intros e ->.
Qed.

(** C8 — The builder on the three motifs A, B, C with sim(A,B) = 0.9,
    sim(A,C) = 0.2, sim(B,C) = 0.3 does not reduce the list to one motif when
    the averaging primitive rejects the offset it is handed: the pair (A, B)
    is selected, the call receives the offset [7] and orientation [-1]
    recorded for (B, C) instead of the pair's own [1] and [1], and the
    exception of that call ends the first level and the builder with no
    merge done. *)
Theorem generate_consensus_motif_stale_offset_raises
    (average_motifs : Motif unit -> Motif unit -> Z -> Z -> result (Motif unit))
    (get_all_scores : list (Motif unit) -> result ScoreMap) (e : exn) :
  average_motifs (Scenario.heap3 0) (Scenario.heap3 1) 7%Z (-1)%Z = Raise e →
  merge_level average_motifs Scenario.st3 Scenario.score_dict3 = Raise e ∧
  generate_consensus_motif average_motifs get_all_scores
    Scenario.st3 Scenario.score_dict3 = Raise e ∧
  pair_score Scenario.heap3 Scenario.score_dict3 (0, 1)
  = Ok (mkScore (9 # 10) 1 1).
Proof.
  intros Hcall.
  assert (Hlevel : merge_level average_motifs Scenario.st3 Scenario.score_dict3
                   = Raise e) by (by rewrite merge_level_ABC, Hcall).
  split; [done|]. split; [|done].
  unfold generate_consensus_motif. cbn [generate_consensus_motif_rec].
  rewrite decide_False by done. by rewrite Hlevel.
Qed.

(** ** The scenario satisfies the assumptions *)

Lemma keysets_coincide_same (score_dict : ScoreMap) :
  Forall (fun kv => keys kv.2 = keys score_dict) score_dict →
  keysets_coincide score_dict.
Proof.
  unfold keysets_coincide. intros H. eapply Forall_impl; [exact H|].
  intros kv Hkv x. cbn beta in Hkv. by rewrite Hkv.
Qed.

Lemma score_dict3_keysets : keysets_coincide Scenario.score_dict3.
Proof. apply keysets_coincide_same. by repeat constructor. Qed.

Lemma score_dict3_labels_unique : labels_unique Scenario.score_dict3.
Proof. unfold labels_unique. apply (bool_decide_unpack _). by vm_compute. Qed.

Lemma score_dict3_cover :
  scores_cover Scenario.score_dict3
    (Scenario.heap3 <$> motifs Scenario.st3).
Proof.
  intros a b Ha Hb. cbn in Ha, Hb.
  repeat (apply elem_of_cons in Ha as [->|Ha]);
    [| | |by apply elem_of_nil in Ha];
    (repeat (apply elem_of_cons in Hb as [->|Hb]);
     [| | |by apply elem_of_nil in Hb]);
    (eexists; split; [reflexivity|by cbv]).
Qed.

Lemma uniform_scores_cover (ms : list (Motif unit)) :
  scores_cover (Scenario.uniform_scores ms) ms.
Proof.
  intros a b Ha Hb. exists (mkScore 1 0 1). split; [|by cbv].
  unfold getitem2, Scenario.uniform_scores.
  rewrite (getitem_dict_of_items
             (fun _ => dict_of_items
                ((fun b => (b, mkScore 1 0 1)) <$> (motif_id <$> ms))))
    by (by apply list_elem_of_fmap_2).
  cbn [mbind result_bind].
  apply (getitem_dict_of_items (fun _ => mkScore 1 0 1)).
  by apply list_elem_of_fmap_2.
Qed.

(** ** The theorems at work on the scenario *)



Lemma generate_similarity_matrix_symmetric_witness :
  keysets_coincide Scenario.score_dict3 ∧
  Scenario.score_dict3 ≠ [] ∧
  ∃ df,
    generate_similarity_matrix Scenario.score_dict3 = Ok df ∧
    (∀ i j, i ∈ keys Scenario.score_dict3 → j ∈ keys Scenario.score_dict3 →
       is_Some (loc df (replace_tab i) (replace_tab j))) ∧
    ∀ r c, loc df r c = loc df c r.
Proof.
  assert (Hne : Scenario.score_dict3 ≠ []) by discriminate.
  split; [exact score_dict3_keysets|]. split; [exact Hne|].
  exact (generate_similarity_matrix_symmetric Scenario.score_dict3
           score_dict3_keysets Hne).
Defined.

Lemma get_dissimilar_motifs_spec_witness :
  NoDup (keys (df_columns Scenario.matrix3)) ∧
  get_dissimilar_motifs Scenario.matrix3 (1 # 2) = Ok ["X"] ∧
  "Z" ∉ ["X"].
Proof.
  assert (Hnd : NoDup (keys (df_columns Scenario.matrix3)))
    by (apply (bool_decide_unpack _); by vm_compute).
  destruct (get_dissimilar_motifs_spec Scenario.matrix3 (1 # 2))
    as (Hres & _ & _ & Hlast).
  split; [exact Hnd|]. split; [exact Hres|].
  exact (Hlast Hnd ["X"] "Z" [9 # 10; 9 # 10; 9 # 10] Hres eq_refl).
Defined.


Lemma generate_consensus_motif_stale_offset_raises_witness :
  Scenario.bounded_average (Scenario.heap3 0) (Scenario.heap3 1) 7%Z (-1)%Z
  = Raise IndexError ∧
  Scenario.bounded_average (Scenario.heap3 0) (Scenario.heap3 1) 1%Z 1%Z
  = Ok (mkMotif "" tt) ∧
  generate_consensus_motif Scenario.bounded_average Scenario.all_scores
    Scenario.st3 Scenario.score_dict3 = Raise IndexError.
Proof.
  assert (Hcall : Scenario.bounded_average (Scenario.heap3 0) (Scenario.heap3 1)
                    7%Z (-1)%Z = Raise IndexError) by reflexivity.
  split; [exact Hcall|]. split; [reflexivity|].
  by destruct (generate_consensus_motif_stale_offset_raises
                 Scenario.bounded_average Scenario.all_scores IndexError Hcall)
    as (_ & Hrun & _).
Defined.

Lemma cluster_motifs_excludes_tabbed_witness :
  generate_similarity_matrix Scenario.tabbed_scores
  = Ok (mkDataFrame ["a b"] [("a b", [0%Q])]) ∧
  get_cluster [1%Z] (df_index (mkDataFrame ["a b"] [("a b", [0%Q])]))
  = Ok [("Cluster_1", ["a b"])] ∧
  getitem [("Cluster_1", ["a b"])] "Cluster_1" = Ok ["a b"] ∧
  0 ∉ cluster_motifs Scenario.tabbed_heap [0] ["a b"].
Proof.
  assert (H1 : generate_similarity_matrix Scenario.tabbed_scores
               = Ok (mkDataFrame ["a b"] [("a b", [0%Q])])) by (by vm_compute).
  assert (H2 : get_cluster [1%Z] (df_index (mkDataFrame ["a b"] [("a b", [0%Q])]))
               = Ok [("Cluster_1", ["a b"])]) by (by vm_compute).
  assert (H3 : getitem [("Cluster_1", ["a b"])] "Cluster_1" = Ok ["a b"])
    by reflexivity.
  split; [exact H1|]. split; [exact H2|]. split; [exact H3|].
  destruct (cluster_motifs_excludes_tabbed Scenario.average
              Scenario.all_scores Scenario.tabbed_heap [0]
              Scenario.tabbed_scores _ [1%Z] _ "Cluster_1" ["a b"] H1 H2 H3)
    as (_ & Hnot & _).
  apply Hnot. reflexivity.
Defined.

(** ** Scenarios of the specification, evaluated *)

(** Three motifs with sim(A,B) = 0.9, sim(A,C) = 0.2, sim(B,C) = 0.3 give
    d(A,B) = 0.1, d(A,C) = 0.8, d(B,C) = 0.7; the zero diagonal comes from
    self-similarity 1, not from a special case. *)
Example distance_matrix_ABC :
  generate_similarity_matrix Scenario.score_dict3
  = Ok (mkDataFrame ["A"; "B"; "C"]
          [("A", [0%Q; 100 # 1000; 800 # 1000]);
           ("B", [100 # 1000; 0%Q; 700 # 1000]);
           ("C", [800 # 1000; 700 # 1000; 0%Q])]).
Proof. by vm_compute. Qed.

(** A self-similarity of 0.5 puts 0.5 on the diagonal. *)
Example diagonal_not_forced :
  generate_similarity_matrix [("A", [("A", mkScore (1 # 2) 0 1)])]
  = Ok (mkDataFrame ["A"] [("A", [500 # 1000])]).
Proof. by vm_compute. Qed.

(** A rounded value that is zero is stored as the number [0] itself. *)
Example rounded_zero_replaced :
  round3 (1 - mean2 (10000001 # 10000000) (10000001 # 10000000)) = 0 # 1000 ∧
  replace_neg_zero (0 # 1000) = 0%Q.
Proof. by vm_compute. Qed.

(** Column X lies above the threshold and is reported; column Z does too but
    is last. *)
Example dissimilar_X :
  get_dissimilar_motifs Scenario.matrix3 (1 # 2) = Ok ["X"].
Proof. by vm_compute. Qed.

(** Four motifs in which the disjoint pairs (0, 1) and (2, 3) both score 0.9
    and every other pair 0.1: the pair enumerated later is merged first. *)
Example tie_merges_later_pair :
  let heap4 := fun r : ref =>
    mkMotif (match r with 0 => "A" | 1 => "B" | 2 => "C" | _ => "D" end) tt in
  let hi := mkScore (9 # 10) 0 1 in
  let lo := mkScore (1 # 10) 0 1 in
  let sd4 : ScoreMap :=
    [("A", [("A", hi); ("B", hi); ("C", lo); ("D", lo)]);
     ("B", [("A", hi); ("B", hi); ("C", lo); ("D", lo)]);
     ("C", [("A", lo); ("B", lo); ("C", hi); ("D", hi)]);
     ("D", [("A", lo); ("B", lo); ("C", hi); ("D", hi)])] in
  ∃ st', merge_level Scenario.average (mkState heap4 4 [0; 1; 2; 3] []) sd4 = Ok st' ∧
         trace st' = [EvAverage 2 3 0 1] ∧ motifs st' = [0; 1; 4].
Proof. eexists. split; [reflexivity|]. by split. Qed.

(** With every similarity below zero no pair is ever selected. *)
Example negative_scores_select_nothing
    (average_motifs : Motif unit -> Motif unit -> Z -> Z -> result (Motif unit)) :
  let neg := mkScore (-1 # 10) 0 1 in
  let sd2 : ScoreMap := [("A", [("A", neg); ("B", neg)]);
                         ("B", [("A", neg); ("B", neg)])] in
  merge_level average_motifs (mkState Scenario.heap3 2 [0; 1] []) sd2
  = Raise (UnboundLocalError "merge_1").
Proof. reflexivity. Qed.

(** * Further properties *)

(** ** Generic facts *)

Lemma for_each_Ok_steps {X S} (f : S -> X -> result S) (l : list X) (s s' : S) x :
  for_each f l s = Ok s' → x ∈ l → ∃ s1 s2, f s1 x = Ok s2.
Proof.
  revert s. induction l as [|y l IH]; intros s Hl Hx; [by apply elem_of_nil in Hx|].
  cbn [for_each] in Hl. destruct (f s y) as [s1|] eqn:Hf; [|done].
  cbn [mbind result_bind] in Hl.
  apply elem_of_cons in Hx as [->|Hx]; [eauto|]. by eapply IH.
Qed.

Lemma for_each_Raise_step {X S} (f : S -> X -> result S) (l : list X) (s : S) e :
  for_each f l s = Raise e → ∃ s1 x, x ∈ l ∧ f s1 x = Raise e.
Proof.
  revert s. induction l as [|y l IH]; intros s Hl; [done|].
  cbn [for_each] in Hl. destruct (f s y) as [s1|e1] eqn:Hf;
    cbn [mbind result_bind] in Hl.
  - destruct (IH _ Hl) as (s2 & x & Hx & Hfx). exists s2, x. split; [by right|done].
  - injection Hl as ->. exists s, y. split; [left|done].
Qed.

Lemma comprehension_Raise {X Y} (f : X -> result Y) (l : list X) e :
  comprehension f l = Raise e → ∃ x, x ∈ l ∧ f x = Raise e.
Proof.
  induction l as [|y l IH]; intros Hl; [done|]. cbn [comprehension] in Hl.
  destruct (f y) as [v|e1] eqn:Hf; cbn [mbind result_bind] in Hl.
  - destruct (comprehension f l) as [vs|e2]; cbn [mbind result_bind] in Hl; [done|].
    injection Hl as ->. destruct (IH eq_refl) as (x & Hx & Hfx).
    exists x. split; [by right|done].
  - injection Hl as ->. exists y. split; [left|done].
Qed.

Lemma setitem_fresh {V} (d : pdict V) k v :
  k ∉ keys d → setitem d k v = d ++ [(k, v)].
Proof.
  induction d as [|[k0 v0] d IH]; simpl; [done|].
  intros [Hne Hk]%not_elem_of_cons. rewrite decide_False by done.
  by rewrite IH.
Qed.

Lemma NoDup_keys_dict_of_items {V} (kvs : list (string * V)) :
  NoDup (keys (dict_of_items kvs)).
Proof.
  induction kvs as [|kv kvs IH] using rev_ind; [constructor|].
  rewrite dict_of_items_snoc. by apply NoDup_keys_setitem.
Qed.

Lemma dict_of_items_NoDup {V} (g : string -> V) (l : list string) :
  NoDup l →
  dict_of_items ((fun c => (c, g c)) <$> l) = (fun c => (c, g c)) <$> l.
Proof.
  induction l as [|c l IH] using rev_ind; intros Hnd; [done|].
  apply NoDup_app in Hnd as (Hl & Hc & _).
  rewrite fmap_app. cbn [fmap list_fmap]. rewrite dict_of_items_snoc, IH by done.
  cbn [fst snd]. apply setitem_fresh. unfold keys.
  rewrite <- list_fmap_compose.
  intros (c' & -> & Hc')%list_elem_of_fmap. apply (Hc c'); [done|left].
Qed.

Lemma getitem_NoDup {V} (d : pdict V) k v :
  NoDup (keys d) → (k, v) ∈ d → getitem d k = Ok v.
Proof.
  induction d as [|[k0 v0] d IH]; simpl; intros Hnd Hin;
    [by apply elem_of_nil in Hin|].
  apply NoDup_cons in Hnd as [Hk0 Hnd].
  apply elem_of_cons in Hin as [[= -> ->]|Hin].
  - by rewrite decide_True.
  - rewrite decide_False; [by apply IH|].
    intros ->. apply Hk0. apply list_elem_of_fmap. by exists (k0, v).
Qed.

(** ** The Score Matrix Builder: outcome, shape and range *)

Lemma getitem2_Ok_key score_dict a b s :
  getitem2 score_dict a b = Ok s → a ∈ keys score_dict.
Proof.
  unfold getitem2. destruct (getitem score_dict a) as [inner|] eqn:Ha; [|done].
  intros _. by eapply getitem_Ok_key.
Qed.

Lemma getitem2_Raise score_dict a b e :
  getitem2 score_dict a b = Raise e → ∃ k, e = KeyError k.
Proof.
  unfold getitem2. destruct (getitem score_dict a) as [inner|e1] eqn:Ha;
    cbn [mbind result_bind].
  - intros ->%getitem_Raise. eauto.
  - intros [= <-]. apply getitem_Raise in Ha. eauto.
Qed.

Lemma sim_step_Ok score_dict m1 l1 sd m2 l2 sd' :
  sim_step score_dict m1 l1 sd (m2, l2) = Ok sd' →
  (∃ s, getitem2 score_dict m1 m2 = Ok s) ∧
  (∃ s, getitem2 score_dict m2 m1 = Ok s).
Proof.
  unfold sim_step.
  destruct (getitem2 score_dict m1 m2) as [s12|]; [|done].
  destruct (getitem2 score_dict m2 m1) as [s21|]; [|done]. eauto.
Qed.

Lemma sim_step_Raise score_dict m1 l1 sd p e :
  sim_step score_dict m1 l1 sd p = Raise e → ∃ k, e = KeyError k.
Proof.
  destruct p as [m2 l2]. unfold sim_step.
  destruct (getitem2 score_dict m1 m2) as [s12|e1] eqn:H12; cbn [mbind result_bind].
  2:{ intros [= <-]. by eapply getitem2_Raise. }
  destruct (getitem2 score_dict m2 m1) as [s21|e2] eqn:H21; cbn [mbind result_bind].
  2:{ intros [= <-]. by eapply getitem2_Raise. }
  unfold setitem2 at 2. destruct (sd !! l1) as [inner|]; cbn [mbind result_bind];
    [|intros [= <-]; eauto].
  unfold setitem2. destruct (_ !! l2); [done|]. intros [= <-]. eauto.
Qed.

(** One inner iteration, given that its two lookups succeed. *)
Lemma sim_step_inv_gen score_dict done sd a b sab sba :
  sim_inv score_dict done sd →
  a ∈ keys score_dict → b ∈ keys score_dict →
  getitem2 score_dict a b = Ok sab → getitem2 score_dict b a = Ok sba →
  ∃ sd', sim_step score_dict a (replace_tab a) sd (b, replace_tab b) = Ok sd' ∧
         sim_inv score_dict (done ++ [(a, b)]) sd'.
Proof.
  intros [Hdom Hsym Hdone Hval] Ha Hb Hab Hba. unfold sim_step.
  rewrite Hab, Hba. simpl.
  fold (distance (similarity sab) (similarity sba)).
  set (v := distance (similarity sab) (similarity sba)).
  assert (Hla : is_Some (sd !! replace_tab a))
    by (apply Hdom; by apply list_elem_of_fmap_2).
  destruct (setitem2_ok sd (replace_tab a) (replace_tab b) v Hla) as [sd1 H1].
  rewrite H1. simpl.
  assert (Hlb : is_Some (sd1 !! replace_tab b)).
  { apply (dom_setitem2 _ _ _ _ _ _ H1), Hdom. by apply list_elem_of_fmap_2. }
  destruct (setitem2_ok sd1 (replace_tab b) (replace_tab a) v Hlb) as [sd2 H2].
  exists sd2. split; [done|].
  assert (Hcell : ∀ x y, cell sd2 x y =
    if decide ((x = replace_tab a ∧ y = replace_tab b) ∨
               (x = replace_tab b ∧ y = replace_tab a))
    then Some v else cell sd x y).
  { intros x y. rewrite (cell_setitem2 _ _ _ _ _ x y H2).
    rewrite (cell_setitem2 _ _ _ _ _ x y H1).
    repeat case_decide; naive_solver. }
  split.
  - intros l. rewrite (dom_setitem2 _ _ _ _ _ l H2), (dom_setitem2 _ _ _ _ _ l H1).
    apply Hdom.
  - intros x y. rewrite !Hcell. rewrite Hsym.
    repeat case_decide; naive_solver.
  - intros a' b' Hin. rewrite Hcell. case_decide; [eauto|].
    apply elem_of_app in Hin as [Hin|Hin]; [by apply Hdone|].
    apply list_elem_of_singleton in Hin as [= -> ->]. naive_solver.
  - intros x y w. rewrite Hcell. case_decide as Hc; [|by apply Hval].
    intros [= <-]. destruct Hc as [[-> ->]|[-> ->]].
    + by exists a, b, sab, sba.
    + exists b, a, sba, sab. repeat split; try done.
      subst v. apply distance_comm.
Qed.

Lemma sim_loops_gen score_dict (m2_keys : list string) :
  lookups_succeed score_dict m2_keys →
  ∀ (l1 : list string) done sd,
    sim_inv score_dict done sd → (∀ a, a ∈ l1 → a ∈ keys score_dict) →
    ∃ sd', for_each (fun sd p => for_each (sim_step score_dict p.1 p.2)
                       ((fun x => (x, replace_tab x)) <$> m2_keys) sd)
             ((fun x => (x, replace_tab x)) <$> l1) sd = Ok sd' ∧
           sim_inv score_dict
             (done ++ (a ← l1; (fun b => (a, b)) <$> m2_keys)) sd'.
Proof.
  intros Hok.
  assert (Hinner : ∀ a, a ∈ keys score_dict →
    ∀ (l2 : list string), (∀ b, b ∈ l2 → b ∈ m2_keys) → ∀ done sd,
      sim_inv score_dict done sd →
      ∃ sd', for_each (sim_step score_dict a (replace_tab a))
               ((fun x => (x, replace_tab x)) <$> l2) sd = Ok sd' ∧
             sim_inv score_dict (done ++ ((fun b => (a, b)) <$> l2)) sd').
  { intros a Ha. induction l2 as [|b l2 IH]; intros Hl2 done sd Hinv.
    - exists sd. by rewrite app_nil_r.
    - destruct (Hok a b Ha) as [[sab Hab] [sba Hba]]; [apply Hl2; left|].
      destruct (sim_step_inv_gen _ done sd a b sab sba Hinv Ha
                  (getitem2_Ok_key _ _ _ _ Hba) Hab Hba) as (sd1 & H1 & Hinv1).
      rewrite !fmap_cons. cbn [for_each]. rewrite H1. cbn [mbind result_bind].
      destruct (IH (fun b' Hb' => Hl2 b' (list_elem_of_further _ _ _ Hb')) _ _ Hinv1)
        as (sd' & H' & Hinv').
      exists sd'. split; [done|]. by rewrite <- app_assoc in Hinv'. }
  induction l1 as [|a l1 IH]; intros done sd Hinv Hl1.
  - exists sd. by rewrite app_nil_r.
  - rewrite fmap_cons. cbn [for_each fst snd].
    destruct (Hinner a (Hl1 a (list_elem_of_here _ _)) m2_keys (fun _ H => H)
                done sd Hinv) as (sd1 & H1 & Hinv1).
    rewrite H1. cbn [mbind result_bind].
    destruct (IH _ _ Hinv1 (fun a' Ha' => Hl1 a' (list_elem_of_further _ _ _ Ha')))
      as (sd' & H' & Hinv').
    exists sd'. split; [done|].
    rewrite bind_cons. by rewrite <- app_assoc in Hinv'.
Qed.

Lemma generate_similarity_matrix_gen k0 inner0 rest :
  let score_dict := (k0, inner0) :: rest in
  lookups_succeed score_dict (keys inner0) →
  ∃ sd,
    generate_similarity_matrix score_dict
    = Ok (similarity_table sd (replace_tab <$> keys score_dict)
            (replace_tab <$> keys inner0)) ∧
    sim_inv score_dict (a ← keys score_dict; (fun b => (a, b)) <$> keys inner0) sd ∧
    ∀ r c, r ∈ replace_tab <$> keys inner0 →
           c ∈ replace_tab <$> keys score_dict →
           is_Some (cell sd c r).
Proof.
  intros score_dict Hok.
  unfold generate_similarity_matrix.
  change (values score_dict) with (inner0 :: values rest).
  cbn [mbind result_bind].
  rewrite !zip_fmap_self.
  rewrite (for_each_ext _ (fun sd p => for_each (sim_step score_dict p.1 p.2)
             ((fun x => (x, replace_tab x)) <$> keys inner0) sd))
    by (by intros ? []).
  destruct (sim_loops_gen score_dict (keys inner0) Hok (keys score_dict) [] _
              (sim_inv_init score_dict)) as (sd & Hloop & Hinv); [done|].
  rewrite Hloop. cbn [mbind result_bind]. rewrite app_nil_l in Hinv.
  assert (Hpresent : ∀ r c, r ∈ replace_tab <$> keys inner0 →
            c ∈ replace_tab <$> keys score_dict → is_Some (cell sd c r)).
  { intros r c (b & -> & Hb)%list_elem_of_fmap (a & -> & Ha)%list_elem_of_fmap.
    apply (inv_done _ _ _ Hinv a b).
    apply list_elem_of_bind. exists a. split; [|done].
    by apply list_elem_of_fmap_2. }
  exists sd. split; [|done].
  rewrite (comprehension_ok _
             (fun m1 => (m1, (fun r => default 0%Q (cell sd m1 r))
                               <$> (replace_tab <$> keys inner0)))).
  2:{ intros c Hc.
      rewrite (comprehension_ok _ (fun r => default 0%Q (cell sd c r))); [done|].
      intros r Hr. apply lookup2_cell.
      destruct (Hpresent r c Hr Hc) as [v Hv]. by rewrite Hv. }
  done.
Qed.

Lemma generate_similarity_matrix_Ok_lookups k0 inner0 rest df :
  generate_similarity_matrix ((k0, inner0) :: rest) = Ok df →
  lookups_succeed ((k0, inner0) :: rest) (keys inner0).
Proof.
  set (score_dict := (k0, inner0) :: rest).
  unfold generate_similarity_matrix.
  change (values score_dict) with (inner0 :: values rest).
  cbn [mbind result_bind]. rewrite !zip_fmap_self.
  destruct (for_each _ _ _) as [sd|] eqn:Hloop; [|done]. intros _.
  intros m1 m2 Hm1 Hm2.
  destruct (for_each_Ok_steps _ _ _ _ (m1, replace_tab m1) Hloop)
    as (s1 & s2 & Hinner); [by apply (list_elem_of_fmap_2 (fun x => (x, replace_tab x)))|].
  cbn beta iota in Hinner.
  destruct (for_each_Ok_steps _ _ _ _ (m2, replace_tab m2) Hinner)
    as (s3 & s4 & Hstep); [by apply (list_elem_of_fmap_2 (fun x => (x, replace_tab x)))|].
  by apply sim_step_Ok in Hstep.
Qed.

(** X1 — The builder returns a table exactly when the score table is not
    empty and every lookup [score_dict[m1][m2]] and [score_dict[m2][m1]], for
    [m1] a first-level key and [m2] a second-level key of the first entry,
    finds its entry; an empty table raises [IndexError] and every other
    failure is a [KeyError]. *)
Theorem generate_similarity_matrix_outcome (score_dict : ScoreMap) :
  ((∃ df, generate_similarity_matrix score_dict = Ok df) ↔
   ∃ k0 inner0 rest, score_dict = (k0, inner0) :: rest ∧
                     lookups_succeed score_dict (keys inner0)) ∧
  (∀ e, generate_similarity_matrix score_dict = Raise e →
        (score_dict = [] ∧ e = IndexError) ∨
        (score_dict ≠ [] ∧ ∃ k, e = KeyError k)).
Proof.
  split; [split|].
  - intros [df Hdf]. destruct score_dict as [|[k0 inner0] rest]; [done|].
    exists k0, inner0, rest. split; [done|].
    by eapply generate_similarity_matrix_Ok_lookups.
  - intros (k0 & inner0 & rest & -> & Hok).
    destruct (generate_similarity_matrix_gen k0 inner0 rest Hok) as (sd & -> & _).
    eauto.
  - intros e. destruct score_dict as [|[k0 inner0] rest].
    + intros [= <-]. by left.
    + set (score_dict := (k0, inner0) :: rest). intros He. right. split; [done|].
      revert He. unfold generate_similarity_matrix.
      change (values score_dict) with (inner0 :: values rest).
      cbn [mbind result_bind].
      destruct (for_each _ _ _) as [sd|e1] eqn:Hloop; cbn [mbind result_bind].
      * destruct (comprehension _ _) as [items|e2] eqn:Hitems;
          cbn [mbind result_bind]; [done|].
        intros [= <-]. apply comprehension_Raise in Hitems as (c & _ & Hc).
        destruct (comprehension _ _) as [vec|e3] eqn:Hvec;
          cbn [mbind result_bind] in Hc; [done|].
        injection Hc as ->. apply comprehension_Raise in Hvec as (r & _ & Hr).
        unfold lookup2 in Hr. destruct (sd !! c) as [inner|].
        -- destruct (inner !! r); [done|]. injection Hr as <-. eauto.
        -- injection Hr as <-. eauto.
      * intros [= <-].
        apply for_each_Raise_step in Hloop as (s1 & [m1 l1] & _ & Hinner).
        apply for_each_Raise_step in Hinner as (s2 & p & _ & Hstep).
        by eapply sim_step_Raise.
Qed.

(** *** Rounding keeps a value between integer bounds *)

Lemma rint_bounds (x : Q) (lo hi : Z) :
  (inject_Z lo <= x)%Q → (x <= inject_Z hi)%Q → (lo ≤ rint x ≤ hi)%Z.
Proof.
  intros Hlo Hhi.
  assert (Hf1 : (lo ≤ Qfloor x)%Z).
  { rewrite <- (Qfloor_Z lo). by apply Qfloor_resp_le. }
  assert (Hf2 : (Qfloor x ≤ hi)%Z).
  { rewrite <- (Qfloor_Z hi). by apply Qfloor_resp_le. }
  unfold rint.
  destruct (decide (Qfloor x = hi)) as [Heq|Hne].
  - assert (Hr : ((x - inject_Z (Qfloor x)) ?= 1 # 2)%Q = Lt).
    { apply (proj1 (Qlt_alt _ _)). pose proof (Qfloor_le x) as Hle.
      rewrite Heq in *. lra. }
    rewrite Hr. lia.
  - destruct (_ ?= _)%Q; [destruct (Z.even _)| |]; lia.
Qed.

Lemma round3_unit_interval (x : Q) :
  (0 <= x)%Q → (x <= 1)%Q → (0 <= round3 x)%Q ∧ (round3 x <= 1)%Q.
Proof.
  intros H0 H1. unfold round3.
  destruct (rint_bounds (x * 1000) 0 1000) as [Hlo Hhi].
  { change (inject_Z 0) with 0%Q. lra. }
  { change (inject_Z 1000) with 1000%Q. lra. }
  rewrite Zle_Qle in Hlo, Hhi.
  change (inject_Z 0) with 0%Q in Hlo. change (inject_Z 1000) with 1000%Q in Hhi.
  revert Hlo Hhi. generalize (inject_Z (rint (x * 1000))). intros n Hlo Hhi.
  split; [apply Qle_shift_div_l|apply Qle_shift_div_r]; lra.
Qed.

Lemma distance_unit_interval (a b : Q) :
  (0 <= a)%Q → (a <= 1)%Q → (0 <= b)%Q → (b <= 1)%Q →
  (0 <= distance a b)%Q ∧ (distance a b <= 1)%Q.
Proof.
  intros. unfold distance, mean2.
  assert (Hm : (0 <= (a + b) / 2)%Q ∧ ((a + b) / 2 <= 1)%Q)
    by (split; [apply Qle_shift_div_l|apply Qle_shift_div_r]; lra).
  revert Hm. generalize ((a + b) / 2)%Q. intros m [? ?].
  apply round3_unit_interval; lra.
Qed.

Lemma replace_neg_zero_unit_interval (x : Q) :
  (0 <= x)%Q ∧ (x <= 1)%Q →
  (0 <= replace_neg_zero x)%Q ∧ (replace_neg_zero x <= 1)%Q.
Proof. unfold replace_neg_zero. destruct (Qeq_bool x 0); [lra|done]. Qed.

(** The closed form, whenever the builder returns. *)
Lemma generate_similarity_matrix_Ok_table score_dict df :
  generate_similarity_matrix score_dict = Ok df →
  ∃ k0 inner0 rest sd,
    score_dict = (k0, inner0) :: rest ∧
    df = similarity_table sd (replace_tab <$> keys score_dict)
           (replace_tab <$> keys inner0) ∧
    sim_inv score_dict (a ← keys score_dict; (fun b => (a, b)) <$> keys inner0) sd ∧
    ∀ r c, r ∈ replace_tab <$> keys inner0 →
           c ∈ replace_tab <$> keys score_dict →
           is_Some (cell sd c r).
Proof.
  intros Hdf. destruct score_dict as [|[k0 inner0] rest]; [done|].
  pose proof (generate_similarity_matrix_Ok_lookups _ _ _ _ Hdf) as Hok.
  destruct (generate_similarity_matrix_gen k0 inner0 rest Hok)
    as (sd & Heq & Hinv & Hpresent).
  exists k0, inner0, rest, sd. split; [done|]. split; [congruence|done].
Qed.

Lemma similarity_table_column sd (m1_labels m2_labels : list string) c vec :
  (c, vec) ∈ df_columns (similarity_table sd m1_labels m2_labels) →
  c ∈ m1_labels ∧
  vec = (fun r => replace_neg_zero (default 0%Q (cell sd c r))) <$> m2_labels.
Proof.
  unfold similarity_table. cbn [df_replace_neg_zero df_columns].
  intros (kv & [= -> ->] & Hin)%list_elem_of_fmap. destruct kv as [c vec0].
  cbn [fst snd].
  pose proof (getitem_NoDup _ _ _ (NoDup_keys_dict_of_items _) Hin) as Hget.
  assert (Hc : c ∈ m1_labels).
  { apply (keys_dict_of_items
             (fun c => (fun r => default 0%Q (cell sd c r)) <$> m2_labels)).
    by eapply getitem_Ok_key. }
  split; [done|].
  rewrite (getitem_dict_of_items
             (fun c => (fun r => default 0%Q (cell sd c r)) <$> m2_labels)) in Hget
    by done.
  injection Hget as <-. by rewrite <- list_fmap_compose.
Qed.

(** X2 — Whenever the builder returns, the table is well formed: the row
    labels are the normalised second-level keys of the first entry, in order;
    the column labels are distinct and are exactly the normalised first-level
    keys (in their order when these stay distinct after normalisation); and
    every column holds one value per row label. *)
Theorem generate_similarity_matrix_shape (score_dict : ScoreMap) (df : DataFrame) :
  generate_similarity_matrix score_dict = Ok df →
  ∃ k0 inner0 rest,
    score_dict = (k0, inner0) :: rest ∧
    df_index df = replace_tab <$> keys inner0 ∧
    NoDup (keys (df_columns df)) ∧
    (∀ c, c ∈ keys (df_columns df) ↔ c ∈ replace_tab <$> keys score_dict) ∧
    Forall (fun kv => length kv.2 = length (df_index df)) (df_columns df) ∧
    (labels_unique score_dict →
     keys (df_columns df) = replace_tab <$> keys score_dict).
Proof.
  intros Hdf.
  destruct (generate_similarity_matrix_Ok_table _ _ Hdf)
    as (k0 & inner0 & rest & sd & Hsd & -> & _ & _).
  exists k0, inner0, rest. split; [done|]. split; [done|].
  set (g := fun c => (fun r => default 0%Q (cell sd c r))
                       <$> (replace_tab <$> keys inner0)).
  assert (Hkeys : keys (df_columns (similarity_table sd
                    (replace_tab <$> keys score_dict) (replace_tab <$> keys inner0)))
                  = keys (dict_of_items ((fun c => (c, g c))
                                           <$> (replace_tab <$> keys score_dict)))).
  { unfold similarity_table. cbn [df_replace_neg_zero df_columns].
    apply keys_map_values. }
  rewrite Hkeys. split; [apply NoDup_keys_dict_of_items|]. split; [|split].
  - intros c. split; [apply keys_dict_of_items|].
    intros Hc. eapply getitem_Ok_key. by apply (getitem_dict_of_items g).
  - apply Forall_forall. intros [c vec] Hin.
    apply similarity_table_column in Hin as [_ ->].
    unfold similarity_table, df_replace_neg_zero. cbn [df_index snd].
    by rewrite !length_fmap.
  - intros Hu. rewrite (dict_of_items_NoDup g) by done.
    unfold keys. rewrite <- list_fmap_compose. apply list_fmap_id.
Qed.

(** X3 — When every recorded similarity lies between 0 and 1, every value
    of the returned table lies between 0 and 1. *)
Theorem generate_similarity_matrix_range (score_dict : ScoreMap) (df : DataFrame) :
  generate_similarity_matrix score_dict = Ok df →
  (∀ a b s, getitem2 score_dict a b = Ok s →
            (0 <= similarity s)%Q ∧ (similarity s <= 1)%Q) →
  Forall (fun kv => Forall (fun v => (0 <= v)%Q ∧ (v <= 1)%Q) kv.2) (df_columns df).
Proof.
  intros Hdf Hsim.
  destruct (generate_similarity_matrix_Ok_table _ _ Hdf)
    as (k0 & inner0 & rest & sd & Hsd & -> & Hinv & _).
  apply Forall_forall. intros [c vec] Hin.
  apply similarity_table_column in Hin as [_ ->]. cbn [snd].
  apply Forall_forall. intros v (r & -> & _)%list_elem_of_fmap.
  apply replace_neg_zero_unit_interval.
  destruct (cell sd c r) as [w|] eqn:Hw; cbn [default]; [|lra].
  destruct (inv_val _ _ _ Hinv _ _ _ Hw)
    as (a & b & sab & sba & _ & _ & _ & _ & Hab & Hba & ->).
  destruct (Hsim _ _ _ Hab), (Hsim _ _ _ Hba).
  by apply distance_unit_interval.
Qed.

(** ** The Dissimilarity Classifier: thresholds and the pipeline *)

Lemma get_dissimilar_motifs_closed matrix threshold :
  get_dissimilar_motifs matrix threshold
  = Ok (List.filter (fun c => all_above threshold c.2)
          (take (shape1 matrix - 1) (df_columns matrix))).*1.
Proof.
  unfold get_dissimilar_motifs.
  rewrite get_dissimilar_motifs_loop by lia. by rewrite drop_0.
Qed.

Lemma filter_sublist_impl {A} (f g : A -> bool) (l : list A) :
  (∀ x, f x = true → g x = true) →
  List.filter f l `sublist_of` List.filter g l.
Proof.
  intros Hfg. induction l as [|x l IH]; simpl; [constructor|].
  destruct (f x) eqn:Hf.
  - rewrite (Hfg x Hf). by constructor.
  - destruct (g x); [by constructor|done].
Qed.

Lemma filter_sublist {A} (f : A -> bool) (l : list A) :
  List.filter f l `sublist_of` l.
Proof.
  induction l as [|x l IH]; simpl; [constructor|].
  destruct (f x); by constructor.
Qed.

(** X4 — The classifier never raises, reports column labels in column
    order, and reports fewer motifs as the threshold grows: the report at a
    larger threshold is a subsequence of the report at a smaller one. *)
Theorem get_dissimilar_motifs_antitone (matrix : DataFrame) (t t' : Q) :
  (t <= t')%Q →
  ∃ res res',
    get_dissimilar_motifs matrix t = Ok res ∧
    get_dissimilar_motifs matrix t' = Ok res' ∧
    res' `sublist_of` res ∧
    res `sublist_of` keys (df_columns matrix).
Proof.
  intros Ht. rewrite !get_dissimilar_motifs_closed. eexists _, _.
  split; [done|]. split; [done|]. split.
  - apply fmap_sublist, filter_sublist_impl. intros [c vec]. cbn [snd].
    rewrite !all_above_Forall. intros Hall.
    eapply Forall_impl; [exact Hall|]. intros x Hx. by eapply Qle_lt_trans.
  - unfold keys. apply fmap_sublist.
    etransitivity; [apply filter_sublist|apply sublist_take].
Qed.

Lemma round3_zero (x : Q) : (x == 0)%Q → (round3 x == 0)%Q.
Proof.
  intros Hx. unfold round3.
  assert (Hr : rint (x * 1000) = 0%Z).
  { destruct (rint_bounds (x * 1000) 0 0) as [? ?];
      [change (inject_Z 0) with 0%Q; lra..|lia]. }
  by rewrite Hr.
Qed.

(** X5 — Along the pipeline, the diagonal decides the report: for a score
    table whose key sets coincide and whose identifiers stay distinct after
    normalisation, a motif whose own rounded distance to itself does not
    exceed the threshold is never reported; so with every self-similarity
    equal to 1 and a threshold that is not negative, the report is empty. *)
Theorem dissimilar_needs_distant_self (score_dict : ScoreMap) (df : DataFrame)
    (t : Q) (res : list string) :
  keysets_coincide score_dict → labels_unique score_dict →
  generate_similarity_matrix score_dict = Ok df →
  get_dissimilar_motifs df t = Ok res →
  (∀ i s, getitem2 score_dict i i = Ok s →
     (replace_neg_zero (distance (similarity s) (similarity s)) <= t)%Q →
     replace_tab i ∉ res) ∧
  ((0 <= t)%Q →
   (∀ i s, getitem2 score_dict i i = Ok s → (similarity s == 1)%Q) →
   res = []).
Proof.
  intros Hk Hu Hdf Hres.
  destruct (generate_similarity_matrix_Ok_table _ _ Hdf)
    as (k0 & inner0 & rest & sd & Hsd & -> & Hinv & Hpresent).
  assert (Hm2 : ∀ x, x ∈ keys inner0 ↔ x ∈ keys score_dict).
  { unfold keysets_coincide in Hk. rewrite Forall_forall in Hk.
    apply (Hk (k0, inner0)). rewrite Hsd. left. }
  rewrite get_dissimilar_motifs_closed in Hres. injection Hres as <-.
  assert (Hone : ∀ i s, getitem2 score_dict i i = Ok s →
     (replace_neg_zero (distance (similarity s) (similarity s)) <= t)%Q →
     replace_tab i ∉
       (List.filter (fun c => all_above t c.2)
          (take (shape1 (similarity_table sd (replace_tab <$> keys score_dict)
                           (replace_tab <$> keys inner0)) - 1)
             (df_columns (similarity_table sd (replace_tab <$> keys score_dict)
                            (replace_tab <$> keys inner0))))).*1).
  { intros i s Hs Hle ([c vec] & Hc & Hin)%list_elem_of_fmap. cbn [fst] in Hc.
    subst c. apply list_elem_of_In, filter_In in Hin as [Hin Hab].
    apply list_elem_of_In in Hin. cbn [snd] in Hab.
    apply (subseteq_take _ _ _) in Hin.
    apply similarity_table_column in Hin as [_ ->].
    apply all_above_Forall in Hab. rewrite Forall_forall in Hab.
    pose proof (getitem2_Ok_key _ _ _ _ Hs) as Hi.
    assert (Hrow : replace_tab i ∈ replace_tab <$> keys inner0)
      by (apply list_elem_of_fmap_2; by apply Hm2).
    specialize (Hab _ (list_elem_of_fmap_2
      (fun r => replace_neg_zero (default 0%Q (cell sd (replace_tab i) r))) _ _ Hrow)).
    cbn beta in Hab.
    destruct (Hpresent (replace_tab i) (replace_tab i) Hrow) as [w Hw];
      [by apply list_elem_of_fmap_2|].
    rewrite Hw in Hab. cbn [default] in Hab.
    destruct (inv_val _ _ _ Hinv _ _ _ Hw)
      as (a & b & sab & sba & Ha & Hb & Hra & Hrb & Hab' & Hba' & ->).
    apply (NoDup_fmap_eq _ _ _ _ Hu Ha Hi) in Hra as ->.
    apply (NoDup_fmap_eq _ _ _ _ Hu Hb Hi) in Hrb as ->.
    rewrite Hs in Hab', Hba'. injection Hab' as <-. injection Hba' as <-.
    by apply (Qlt_not_le _ _ Hab). }
  split; [exact Hone|].
  intros Ht Hself. apply elem_of_nil_inv. intros label Hlabel.
  pose proof Hlabel as ([c vec] & Hc & Hin)%list_elem_of_fmap.
  cbn [fst] in Hc. subst c.
  apply list_elem_of_In, filter_In in Hin as [Hin _].
  apply list_elem_of_In, (subseteq_take _ _ _), similarity_table_column in Hin
    as [(i & -> & Hi)%list_elem_of_fmap _].
  destruct (getitem2_ok _ i i Hk Hi Hi) as [s Hs].
  apply (Hone i s Hs); [|exact Hlabel].
  assert (Hd : (distance (similarity s) (similarity s) == 0)%Q).
  { unfold distance. apply round3_zero. unfold mean2.
    rewrite (Hself i s Hs). reflexivity. }
  rewrite (replace_neg_zero_zero _ Hd). exact Ht.
Qed.

(** ** The grouping step: partition, order and mismatched lengths *)

Lemma defaultdict_append_cons k0 v0 (d : pdict (list string)) k x :
  defaultdict_append ((k0, v0) :: d) k x
  = if decide (k = k0) then (k0, v0 ++ [x]) :: d
    else (k0, v0) :: defaultdict_append d k x.
Proof.
  unfold defaultdict_append. simpl.
  destruct (decide (k = k0)) as [->|Hne]; [done|done].
Qed.

Lemma defaultdict_append_concat (d : pdict (list string)) k x :
  concat (values (defaultdict_append d k x)) ≡ₚ x :: concat (values d).
Proof.
  induction d as [|[k0 v0] d IH]; [done|].
  rewrite defaultdict_append_cons. destruct (decide (k = k0)) as [->|Hne].
  - cbn. rewrite <- app_assoc. cbn. by rewrite <- Permutation_middle.
  - cbn. cbn in IH. rewrite IH. by rewrite <- Permutation_middle.
Qed.

Lemma defaultdict_append_nonempty (d : pdict (list string)) k x :
  Forall (fun v => v ≠ []) (values d) →
  Forall (fun v => v ≠ []) (values (defaultdict_append d k x)).
Proof.
  induction d as [|[k0 v0] d IH]; intros Hd.
  - by repeat constructor.
  - rewrite defaultdict_append_cons. cbn in Hd.
    apply Forall_cons in Hd as [Hv0 Hd].
    destruct (decide (k = k0)) as [->|Hne]; cbn.
    + constructor; [by destruct v0|done].
    + constructor; [done|by apply IH].
Qed.

Lemma defaultdict_append_keys (d : pdict (list string)) k x :
  keys (defaultdict_append d k x)
  = if decide (k ∈ keys d) then keys d else keys d ++ [k].
Proof.
  unfold keys. induction d as [|[k0 v0] d IH].
  - cbn. case_decide as H; [by apply elem_of_nil in H|done].
  - rewrite defaultdict_append_cons. destruct (decide (k = k0)) as [->|Hne].
    + rewrite !fmap_cons. cbn [fst]. by rewrite decide_True by left.
    + rewrite !fmap_cons. cbn [fst]. rewrite IH.
      destruct (decide (k ∈ d.*1)) as [Hin|Hin].
      * by rewrite decide_True by (by right).
      * rewrite decide_False; [done|]. by apply not_elem_of_cons.
Qed.

Lemma first_occurrences_snoc labels n :
  first_occurrences (labels ++ [n])
  = if decide (n ∈ first_occurrences labels) then first_occurrences labels
    else first_occurrences labels ++ [n].
Proof. unfold first_occurrences. by rewrite fold_left_app. Qed.

(** What the first [m] positions build, for [m] within both lists. *)
Lemma get_cluster_prefix labels label_names m :
  m ≤ length labels → m ≤ length label_names →
  ∃ cluster,
    for_each (cluster_step labels label_names) (seq 0 m) [] = Ok cluster ∧
    concat (values cluster) ≡ₚ take m label_names ∧
    Forall (fun v => v ≠ []) (values cluster) ∧
    keys cluster = cluster_key <$> first_occurrences (take m labels).
Proof.
  induction m as [|m IH]; intros Hm1 Hm2.
  - exists []. by repeat split.
  - destruct IH as (cluster & Hloop & Hperm & Hne & Hkeys); [lia..|].
    rewrite seq_S, for_each_app, Hloop. cbn [mbind result_bind for_each].
    destruct (lookup_lt_is_Some_2 labels m) as [n Hn]; [lia|].
    destruct (lookup_lt_is_Some_2 label_names m) as [name Hname]; [lia|].
    unfold cluster_step, list_index. cbn [plus]. rewrite Hn, Hname.
    cbn [mbind result_bind]. eexists. split; [done|].
    rewrite (take_S_r _ _ _ Hn), (take_S_r _ _ _ Hname). split; [|split].
    + rewrite defaultdict_append_concat, Hperm. apply Permutation_cons_append.
    + by apply defaultdict_append_nonempty.
    + rewrite defaultdict_append_keys, first_occurrences_snoc, Hkeys.
      destruct (decide (n ∈ first_occurrences (take m labels))) as [Hin|Hin].
      * by rewrite decide_True by (by apply list_elem_of_fmap_2).
      * rewrite decide_False; [by rewrite fmap_app|].
        intros (n' & Heq & Hn')%list_elem_of_fmap.
        apply cluster_key_inj in Heq as ->. done.
Qed.

Lemma get_cluster_short labels label_names :
  length label_names < length labels →
  get_cluster labels label_names = Raise IndexError.
Proof.
  intros Hlt. unfold get_cluster.
  replace (length labels)
    with (length label_names + S (length labels - S (length label_names)))
    at 1 by lia.
  rewrite seq_app, for_each_app.
  destruct (get_cluster_prefix labels label_names (length label_names))
    as (cluster & -> & _); [lia..|].
  cbn [mbind result_bind seq for_each Nat.add].
  assert (Hstep : cluster_step labels label_names cluster (length label_names)
                  = Raise IndexError).
  { unfold cluster_step, list_index.
    destruct (lookup_lt_is_Some_2 labels (length label_names)) as [n ->]; [lia|].
    cbn [mbind result_bind].
    by rewrite (lookup_ge_None_2 label_names) by lia. }
  by rewrite Hstep.
Qed.

Lemma get_cluster_Ok_length labels label_names cluster :
  get_cluster labels label_names = Ok cluster →
  length labels ≤ length label_names.
Proof.
  intros Hget. destruct (decide (length labels ≤ length label_names)); [done|].
  rewrite get_cluster_short in Hget by lia. done.
Qed.

(** X8 — When there are fewer row labels than cluster labels the grouping
    raises [IndexError]; when there are more, the surplus row labels are
    ignored without notice. *)
Theorem get_cluster_length_mismatch (labels : list Z) (label_names : list string) :
  (length label_names < length labels →
   get_cluster labels label_names = Raise IndexError) ∧
  (length labels ≤ length label_names →
   get_cluster labels label_names
   = get_cluster labels (take (length labels) label_names)).
Proof.
  split; [apply get_cluster_short|].
  intros Hle. unfold get_cluster.
  assert (Hext : ∀ l cl, (∀ i, i ∈ l → i < length labels) →
    for_each (cluster_step labels label_names) l cl
    = for_each (cluster_step labels (take (length labels) label_names)) l cl).
  { induction l as [|i l IH]; intros cl Hl; [done|]. cbn [for_each].
    assert (Hi : i < length labels) by (apply Hl; left).
    assert (Hstep : cluster_step labels label_names cl i
              = cluster_step labels (take (length labels) label_names) cl i).
    { unfold cluster_step, list_index. by rewrite lookup_take_lt. }
    rewrite Hstep.
    destruct (cluster_step labels (take (length labels) label_names) cl i)
      as [cl'|e]; cbn [mbind result_bind]; [|reflexivity].
    apply IH. intros j Hj. apply Hl. by right. }
  apply Hext. intros i Hi%elem_of_seq. lia.
Qed.

(** X6 — Whenever the grouping returns, the clusters partition the row
    labels that received a cluster label: the member lists, put end to end,
    are a rearrangement of those row labels, and no cluster is empty. *)
Theorem get_cluster_partition (labels : list Z) (label_names : list string)
    (cluster : pdict (list string)) :
  get_cluster labels label_names = Ok cluster →
  concat (values cluster) ≡ₚ take (length labels) label_names ∧
  Forall (fun members => members ≠ []) (values cluster).
Proof.
  intros Hget. pose proof (get_cluster_Ok_length _ _ _ Hget) as Hle.
  destruct (get_cluster_prefix labels label_names (length labels))
    as (cl & Hloop & Hperm & Hne & _); [lia..|].
  unfold get_cluster in Hget. rewrite Hloop in Hget. injection Hget as <-.
  done.
Qed.


(** ** The Consensus Builder: errors, freshness and what is left untouched *)

Lemma combinations2_last {A} (l : list A) (a b : A) :
  ∃ ps, combinations2 (l ++ [a; b]) = ps ++ [(a, b)].
Proof.
  induction l as [|x l [ps IH]].
  - by exists [].
  - cbn [app combinations2]. rewrite IH.
    eexists. by rewrite app_assoc.
Qed.

Lemma combinations2_elem {A} (l : list A) x y :
  (x, y) ∈ combinations2 l → x ∈ l ∧ y ∈ l.
Proof.
  intros (l1 & l2 & l3 & ->)%elem_of_combinations2. set_solver.
Qed.

Section ConsensusBuilderMore.
Context {M : Type}.
Variable average_motifs : Motif M -> Motif M -> Z -> Z -> result (Motif M).
Variable get_all_scores : list (Motif M) -> result ScoreMap.

Local Abbreviation merge_level := (merge_level average_motifs).
Local Abbreviation generate_consensus_motif_rec :=
  (generate_consensus_motif_rec average_motifs get_all_scores).
Local Abbreviation generate_consensus_motif :=
  (generate_consensus_motif average_motifs get_all_scores).
Local Abbreviation consensus_step :=
  (consensus_step average_motifs get_all_scores).
Local Abbreviation generate_consensus_motifs :=
  (generate_consensus_motifs average_motifs get_all_scores).

(** What the selection loop leaves in [merge] and [score]. *)
Lemma select_loop_bound (heap : ref -> Motif M) sd ps sel sel' :
  for_each (select_step heap sd) ps sel = Ok sel' →
  (merge sel' = merge sel ∨ ∃ p, p ∈ ps ∧ merge sel' = Some p) ∧
  (ps ≠ [] → is_Some (score sel')).
Proof.
  revert sel. induction ps as [|p ps IH]; intros sel Hloop.
  - injection Hloop as <-. split; [by left|done].
  - cbn [for_each] in Hloop.
    destruct (select_step heap sd sel p) as [sel1|] eqn:Hstep; [|done].
    cbn [mbind result_bind] in Hloop.
    destruct (IH _ Hloop) as [Hm Hs].
    unfold select_step in Hstep.
    destruct (pair_score heap sd p) as [s|]; [|done].
    cbn [mbind result_bind] in Hstep.
    assert (Hsel1 : (merge sel1 = merge sel ∨ merge sel1 = Some p) ∧
                    is_Some (score sel1)).
    { destruct (Qle_bool _ _); injection Hstep as <-; cbn; eauto. }
    destruct Hsel1 as [Hm1 Hs1]. split.
    + destruct Hm as [Hm|(p' & Hp' & Hm)].
      * rewrite Hm. destruct Hm1 as [-> | ->]; [by left|].
        right. exists p. split; [left|done].
      * right. exists p'. split; [by right|done].
    + intros _. destruct ps as [|p' ps]; [|by apply Hs].
      injection Hloop as <-. done.
Qed.

(** A completed level, taken apart. *)
Lemma merge_level_inv (st st' : state M) sd :
  merge_level st sd = Ok st' →
  ∃ merge_1 merge_2 s l1 average_motif,
    (merge_1, merge_2) ∈ combinations2 (motifs st) ∧
    list_remove merge_1 (motifs st ++ [next st]) = Ok l1 ∧
    list_remove merge_2 l1 = Ok (motifs st') ∧
    next st' = S (next st) ∧
    trace st' = trace st ++ [EvAverage merge_1 merge_2 (offset s) (orientation s)] ∧
    average_motifs (heap st merge_1) (heap st merge_2) (offset s) (orientation s)
    = Ok average_motif ∧
    heap st' (next st)
    = mkMotif (motif_id (heap st merge_1) +:+ "_" +:+ motif_id (heap st merge_2))
        (pwm average_motif) ∧
    ∀ x, x ≠ next st → heap st' x = heap st x.
Proof.
  unfold merge_level, select_pair.
  destruct (for_each _ _ _) as [sel|] eqn:Hsel; [|done]. cbn [mbind result_bind].
  apply select_loop_bound in Hsel as [Hm _]. cbn [merge] in Hm.
  destruct (merge sel) as [[merge_1 merge_2]|]; [|done]. cbn [mbind result_bind].
  destruct Hm as [?|(p & Hp & [= <-])]; [done|].
  destruct (score sel) as [s|]; [|done]. cbn [mbind result_bind].
  destruct (average_motifs _ _ _ _) as [average_motif|] eqn:Hcall; [|done].
  cbn [mbind result_bind].
  destruct (list_remove merge_1 _) as [l1|] eqn:H1; [|done].
  cbn [mbind result_bind].
  destruct (list_remove merge_2 l1) as [l2|] eqn:H2; [|done].
  cbn [mbind result_bind]. intros [= <-]. cbn [motifs trace next heap].
  exists merge_1, merge_2, s, l1, average_motif. repeat split; try done.
  - by rewrite decide_True.
  - intros x Hx. by rewrite decide_False.
Qed.

(** The only ways a level fails: a lookup in the score table, no pair
    selected, or the averaging call itself. *)
Lemma merge_level_Raise_kind (st : state M) sd e :
  merge_level st sd = Raise e →
  (∃ k, e = KeyError k) ∨ e = UnboundLocalError "merge_1" ∨
  (∃ a b pos orientation, average_motifs a b pos orientation = Raise e).
Proof.
  unfold merge_level, select_pair.
  destruct (for_each _ _ _) as [sel|e0] eqn:Hsel; cbn [mbind result_bind].
  2:{ intros [= <-]. left. by eapply select_pair_Raise. }
  apply select_loop_bound in Hsel as [Hm Hs]. cbn [merge] in Hm.
  destruct (merge sel) as [[merge_1 merge_2]|]; cbn [mbind result_bind];
    [|intros [= <-]; right; by left].
  destruct Hm as [?|(p & Hp & [= <-])]; [done|].
  destruct Hs as [s Hs]; [by intros Hnil; rewrite Hnil in Hp; apply elem_of_nil in Hp|].
  rewrite Hs. cbn [mbind result_bind].
  destruct (average_motifs _ _ _ _) as [average_motif|e1] eqn:Hcall;
    cbn [mbind result_bind].
  2:{ intros [= <-]. right. right. eauto. }
  pose proof Hp as (l1 & l2 & l3 & Hl)%elem_of_combinations2.
  destruct (list_remove_keeps merge_1 merge_2 l1 ((l2 ++ merge_2 :: l3) ++ [next st]))
    as (l' & Hr1 & Hin2); [set_solver|].
  destruct (list_remove_elem _ _ Hin2) as [l'' Hr2].
  assert (Heq : motifs st ++ [next st]
                = l1 ++ merge_1 :: (l2 ++ merge_2 :: l3) ++ [next st])
    by (by rewrite Hl, <- app_assoc).
  rewrite Heq, Hr1. cbn [mbind result_bind]. rewrite Hr2. done.
Qed.

(** X9 — On a working list of two or more motifs (every pair scored, with
    a non-negative similarity) the averaging primitive is always called with
    the offset and orientation recorded for the pair made of the last two
    motifs of the list, whichever pair was selected for merging: what that
    call returns becomes the matrix of the new motif, and what it raises is
    raised by the level. *)
Theorem merge_level_offset_of_last_pair (st : state M) (sd : ScoreMap)
    (l : list ref) (a b : ref) :
  motifs st = l ++ [a; b] →
  scores_cover sd (heap st <$> motifs st) →
  ∃ merge_1 merge_2 s,
    pair_score (heap st) sd (a, b) = Ok s ∧
    (∀ average_motif,
       average_motifs (heap st merge_1) (heap st merge_2)
         (offset s) (orientation s) = Ok average_motif →
       ∃ st',
         merge_level st sd = Ok st' ∧
         trace st' = trace st ++
           [EvAverage merge_1 merge_2 (offset s) (orientation s)] ∧
         pwm (heap st' (next st)) = pwm average_motif) ∧
    (∀ e,
       average_motifs (heap st merge_1) (heap st merge_2)
         (offset s) (orientation s) = Raise e →
       merge_level st sd = Raise e).
Proof.
  intros Hl Hcover.
  destruct (merge_level_ok average_motifs st sd) as
    (pre & merge_1 & merge_2 & post & s & ps_init & p_last & s_last & l'
     & _ & _ & _ & _ & Hlast & Hs_last & Hlevel);
    [rewrite Hl, length_app; simpl; lia|done|].
  destruct (combinations2_last l a b) as [ps Hps].
  rewrite Hl, Hps in Hlast. apply app_inj_tail in Hlast as [_ <-].
  exists merge_1, merge_2, s_last. split; [done|]. split.
  - intros average_motif Hcall. rewrite Hcall in Hlevel.
    cbn [mbind result_bind] in Hlevel. eexists. split; [exact Hlevel|].
    cbn [trace heap]. split; [done|]. by rewrite decide_True.
  - intros e Hcall. by rewrite Hcall in Hlevel.
Qed.

(** X10 — When every pair of the working list is scored below zero (and
    the list does not hold exactly one motif), no pair is ever selected and
    the builder raises [UnboundLocalError] for [merge_1]. *)
Theorem generate_consensus_motif_all_negative (st : state M) (sd : ScoreMap) :
  length (motifs st) ≠ 1 →
  (∀ p, p ∈ combinations2 (motifs st) →
        ∃ s, pair_score (heap st) sd p = Ok s ∧ (similarity s < 0)%Q) →
  generate_consensus_motif st sd = Raise (UnboundLocalError "merge_1").
Proof.
  intros Hlen Hneg. unfold generate_consensus_motif.
  cbn [generate_consensus_motif_rec]. rewrite decide_False by done.
  assert (Hlevel : merge_level st sd = Raise (UnboundLocalError "merge_1")).
  { unfold merge_level, select_pair.
    destruct (select_loop (heap st) sd (combinations2 (motifs st))
                (mkSelection 0 None None)) as (sel & -> & Hrel).
    { intros p Hp. destruct (Hneg p Hp) as (s & Hs & _). eauto. }
    cbn [mbind result_bind].
    destruct Hrel as [(-> & _)|(pre & p & s & post & Hsplit & _ & Hs & _ & Hge & _)];
      [done|].
    exfalso. destruct (Hneg p) as (s' & Hs' & Hlt); [rewrite Hsplit; set_solver|].
    rewrite Hs in Hs'. injection Hs' as <-. cbn in Hge.
    by apply (Qlt_not_le _ _ Hlt). }
  by rewrite Hlevel.
Qed.

(** X11 — The statements of the builder themselves fail in two ways
    only: a [KeyError] for an identifier the score table does not hold, or
    [UnboundLocalError] for [merge_1] when no pair was selected.  Every other
    exception is one raised by the averaging call or by the comparer, or is
    [RecursionError], which takes a working list longer than the stack
    frames left (or no frame at all).  In particular the removals from the
    working list always find their motif. *)
Theorem generate_consensus_motif_failures (depth : nat) (st : state M)
    (sd : ScoreMap) (e : exn) :
  generate_consensus_motif_rec depth st sd = Raise e →
  (∃ k, e = KeyError k) ∨ e = UnboundLocalError "merge_1" ∨
  (∃ a b pos orientation, average_motifs a b pos orientation = Raise e) ∨
  (∃ ms, get_all_scores ms = Raise e) ∨
  (e = RecursionError ∧ (depth = 0 ∨ depth < length (motifs st))).
Proof.
  revert st sd. induction depth as [|depth IH]; intros st sd.
  - intros [= <-]. do 4 right. split; [done|by left].
  - cbn [generate_consensus_motif_rec].
    destruct (decide (length (motifs st) = 1)) as [Hone|Hne].
    + by destruct (motifs st).
    + destruct (merge_level st sd) as [st'|e1] eqn:Hlevel; cbn [mbind result_bind].
      * destruct (get_all_scores _) as [sd'|e2] eqn:Hscores;
          cbn [mbind result_bind].
        -- intros Hrec.
           destruct (IH _ _ Hrec) as [?|[?|[?|[?|[-> Hdepth]]]]]; eauto 6.
           do 4 right. split; [done|]. right.
           destruct (merge_level_shape average_motifs _ _ _ Hlevel)
             as (_ & _ & _ & _ & _ & Hs & _).
           lia.
        -- intros [= <-]. eauto 6.
      * intros [= <-].
        destruct (merge_level_Raise_kind _ _ _ Hlevel) as [?|[?|?]]; eauto 6.
Qed.
(** The recursion, framed: what it allocates and what it leaves alone. *)
Lemma generate_consensus_motif_rec_frame depth (st st' : state M) sd r :
  generate_consensus_motif_rec depth st sd = Ok (r, st') →
  next st ≤ next st' ∧
  (∀ x, x < next st → heap st' x = heap st x) ∧
  (length (motifs st) = 1 → st' = st ∧ motifs st = [r]) ∧
  (length (motifs st) ≠ 1 →
   S r = next st' ∧ next st ≤ r ∧ motifs st' = [r]).
Proof.
  revert st sd. induction depth as [|depth IH]; intros st sd; [done|].
  cbn [generate_consensus_motif_rec].
  destruct (decide (length (motifs st) = 1)) as [Hone|Hne].
  - destruct (motifs st) as [|r0 [|? ?]] eqn:Hm; try done.
    cbn. intros [= <- <-]. rewrite Hm. repeat split; done || lia.
  - destruct (merge_level st sd) as [st1|] eqn:Hlevel; [|done].
    cbn [mbind result_bind].
    destruct (get_all_scores _) as [sd1|]; [|done].
    cbn [mbind result_bind]. intros Hrec.
    destruct (IH _ _ Hrec) as (Hnext & Hframe & Hbase & Hstep).
    destruct (merge_level_inv _ _ _ Hlevel)
      as (m1 & m2 & s & l1 & am & Hin & Hr1 & Hr2 & Hn1 & _ & _ & _ & Hheap).
    split; [lia|]. split.
    { intros x Hx. rewrite Hframe by lia. apply Hheap. lia. }
    split; [done|]. intros _.
    destruct (decide (length (motifs st1) = 1)) as [Hone1|Hne1].
    + destruct (Hbase Hone1) as [-> Hm1]. rewrite Hn1. split; [|split; [|done]].
      * f_equal. pose proof (list_remove_length _ _ _ Hr1) as Hl1.
        pose proof (list_remove_length _ _ _ Hr2) as Hl2.
        rewrite length_app in Hl1. cbn in Hl1.
        destruct (motifs st) as [|x [|y [|? ?]]] eqn:Hm; cbn in Hl1; try lia.
        cbn in Hin. apply list_elem_of_singleton in Hin as [= -> ->].
        cbn in Hr1. rewrite decide_True in Hr1 by done. injection Hr1 as <-.
        cbn in Hr2. rewrite decide_True in Hr2 by done.
        rewrite Hm1 in Hr2. by injection Hr2 as <-.
      * pose proof (list_remove_length _ _ _ Hr1) as Hl1.
        pose proof (list_remove_length _ _ _ Hr2) as Hl2.
        rewrite length_app in Hl1. cbn in Hl1.
        destruct (motifs st) as [|x [|y [|? ?]]] eqn:Hm; cbn in Hl1; try lia.
        cbn in Hin. apply list_elem_of_singleton in Hin as [= -> ->].
        cbn in Hr1. rewrite decide_True in Hr1 by done. injection Hr1 as <-.
        cbn in Hr2. rewrite decide_True in Hr2 by done.
        rewrite Hm1 in Hr2. injection Hr2 as <-. done.
    + destruct (Hstep Hne1) as (HS & Hle & Hm'). repeat split; try done. lia.
Qed.

(** X13 — For a working list that does not hold exactly one motif, a
    consensus that is returned is the motif created last: a new object, not
    one of the motifs the list held, and the only motif left in the list. *)
Theorem generate_consensus_motif_fresh (st st' : state M) (sd : ScoreMap) (r : ref) :
  generate_consensus_motif st sd = Ok (r, st') →
  length (motifs st) ≠ 1 →
  motifs st' = [r] ∧ S r = next st' ∧ next st ≤ r ∧
  (Forall (fun x => x < next st) (motifs st) → r ∉ motifs st).
Proof.
  intros Hrun Hne.
  destruct (generate_consensus_motif_rec_frame _ _ _ _ _ Hrun)
    as (_ & _ & _ & Hstep).
  destruct (Hstep Hne) as (HS & Hle & Hm). repeat split; try done.
  intros Hwf Hin. rewrite Forall_forall in Hwf. specialize (Hwf _ Hin). lia.
Qed.

Lemma cluster_motifs_frame (heap heap' : ref -> Motif M) (n : ref)
    (motif_list : list ref) value :
  Forall (fun x => x < n) motif_list →
  (∀ x, x < n → heap' x = heap x) →
  cluster_motifs heap' motif_list value = cluster_motifs heap motif_list value.
Proof.
  intros Hwf Hframe. unfold cluster_motifs.
  induction motif_list as [|m l IH]; [done|].
  apply Forall_cons in Hwf as [Hm Hl].
  rewrite !filter_cons, (Hframe m Hm), IH by done. done.
Qed.

Lemma consensus_step_eq (motif_list : list ref) sd acc (st1 : state M) c value :
  consensus_step motif_list sd (acc, st1) (c, value)
  = ('(r, st') ← generate_consensus_motif
                   (mkState (heap st1) (next st1)
                      (cluster_motifs (heap st1) motif_list value) (trace st1)) sd;
     Ok (setitem acc c r, st')).
Proof. reflexivity. Qed.

(** The loop over clusters, from any point on. *)
Lemma consensus_loop (st0 : state M) (motif_list : list ref) sd
    (l : pdict (list string)) :
  Forall (fun x => x < next st0) motif_list →
  ∀ acc (st1 : state M) cons st',
    next st0 ≤ next st1 → (∀ x, x < next st0 → heap st1 x = heap st0 x) →
    NoDup (keys acc ++ keys l) →
    for_each (consensus_step motif_list sd) l (acc, st1) = Ok (cons, st') →
    next st0 ≤ next st' ∧
    (∀ x, x < next st0 → heap st' x = heap st0 x) ∧
    keys cons = keys acc ++ keys l ∧
    (∀ c r, getitem acc c = Ok r → getitem cons c = Ok r) ∧
    ∀ c value, (c, value) ∈ l →
      ∃ r, getitem cons c = Ok r ∧
           cluster_motifs (heap st0) motif_list value ≠ [] ∧
           (∀ r0, cluster_motifs (heap st0) motif_list value = [r0] → r = r0) ∧
           (length (cluster_motifs (heap st0) motif_list value) ≠ 1 →
            next st0 ≤ r).
Proof.
  intros Hwf. induction l as [|[c value] l IH];
    intros acc st1 cons st' Hnext Hframe Hnd Hloop.
  - injection Hloop as <- <-. rewrite app_nil_r. repeat split; try done.
    intros c value Hin. by apply elem_of_nil in Hin.
  - cbn [for_each] in Hloop. rewrite consensus_step_eq in Hloop.
    rewrite (cluster_motifs_frame (heap st0) (heap st1) (next st0)) in Hloop by done.
    set (work := cluster_motifs (heap st0) motif_list value) in *.
    destruct (generate_consensus_motif _ sd) as [[r st2]|] eqn:Hrun; [|done].
    cbn [mbind result_bind] in Hloop.
    destruct (generate_consensus_motif_rec_frame _ _ _ _ _ Hrun)
      as (Hn2 & Hf2 & Hbase & Hstep). cbn [next heap motifs] in *.
    assert (Hc : c ∉ keys acc).
    { intros Hc. apply NoDup_app in Hnd as (_ & Hdisj & _).
      apply (Hdisj c Hc). left. }
    destruct (IH (setitem acc c r) st2 cons st') as (Hn' & Hf' & Hk' & Hget' & Hrest).
    { lia. }
    { intros x Hx. rewrite Hf2 by lia. by apply Hframe. }
    { rewrite setitem_fresh by done. unfold keys. rewrite fmap_app.
      cbn [fmap list_fmap fst]. by rewrite <- app_assoc. }
    { exact Hloop. }
    split; [done|]. split; [done|]. split; [|split].
    + rewrite Hk', setitem_fresh by done. unfold keys. rewrite fmap_app.
      cbn [fmap list_fmap fst]. by rewrite <- app_assoc.
    + intros c' r' Hacc. apply Hget'. rewrite getitem_setitem.
      rewrite decide_False; [done|]. intros ->. apply Hc. by eapply getitem_Ok_key.
    + intros c' value' [[= -> ->]|Hin]%elem_of_cons; [|by apply Hrest].
      exists r. split; [|split; [|split]].
      * apply Hget'. rewrite getitem_setitem. by rewrite decide_True.
      * intros Hnil. fold work in Hnil. rewrite Hnil in Hrun. done.
      * intros r0 Hr0. fold work in Hr0. rewrite Hr0 in Hbase.
        destruct (Hbase eq_refl) as [_ [= ->]]. done.
      * intros Hlen. fold work in Hlen. destruct (Hstep Hlen) as (_ & Hle & _). lia.
Qed.

(** X12 — Whenever the consensus of all clusters is returned, no motif
    object that existed before has been modified: the builder only creates
    new motifs. *)
Theorem generate_consensus_motifs_frame (st st' : state M) (motif_list : list ref)
    (cluster : pdict (list string)) (sd : ScoreMap) (cons : pdict ref) :
  generate_consensus_motifs st motif_list cluster sd = Ok (cons, st') →
  next st ≤ next st' ∧ ∀ x, x < next st → heap st' x = heap st x.
Proof.
  unfold generate_consensus_motifs. intros Hloop.
  refine (for_each_invariant
            (fun acc => next st ≤ next acc.2 ∧
                        ∀ x, x < next st → heap acc.2 x = heap st x)
            _ _ _ (cons, st') _ _ Hloop); [done|].
  intros [acc st1] [c value] [acc' st2] [Hn Hf] Hstep. cbn [snd] in *.
  unfold consensus_step in Hstep.
  destruct (generate_consensus_motif _ sd) as [[r st3]|] eqn:Hrun; [|done].
  cbn [mbind result_bind] in Hstep. injection Hstep as <- <-.
  destruct (generate_consensus_motif_rec_frame _ _ _ _ _ Hrun) as (Hn2 & Hf2 & _).
  cbn [next heap] in *. split; [lia|].
  intros x Hx. rewrite Hf2 by lia. by apply Hf.
Qed.

(** X14 — Whenever the consensus of all clusters is returned (cluster keys
    distinct, the motifs of the list existing objects), the result holds one
    consensus per cluster, in the order of the clusters; every cluster has at
    least one member in the motif list; a cluster with exactly one member is
    resolved to that member itself, left unmodified; and any other cluster is
    resolved to a newly created motif. *)
Theorem generate_consensus_motifs_result (st st' : state M) (motif_list : list ref)
    (cluster : pdict (list string)) (sd : ScoreMap) (cons : pdict ref) :
  Forall (fun x => x < next st) motif_list →
  NoDup (keys cluster) →
  generate_consensus_motifs st motif_list cluster sd = Ok (cons, st') →
  keys cons = keys cluster ∧
  ∀ c value, (c, value) ∈ cluster →
    ∃ r, getitem cons c = Ok r ∧
         cluster_motifs (heap st) motif_list value ≠ [] ∧
         (∀ r0, cluster_motifs (heap st) motif_list value = [r0] →
                r = r0 ∧ heap st' r0 = heap st r0) ∧
         (length (cluster_motifs (heap st) motif_list value) ≠ 1 → next st ≤ r).
Proof.
  intros Hwf Hnd Hrun. unfold generate_consensus_motifs in Hrun.
  destruct (consensus_loop st motif_list sd cluster Hwf [] st cons st')
    as (_ & Hframe & Hkeys & _ & Hall); [done..|].
  split; [done|]. intros c value Hin.
  destruct (Hall c value Hin) as (r & Hget & Hne & Hone & Hnew).
  exists r. split; [done|]. split; [done|]. split; [|done].
  intros r0 Hr0. split; [by apply Hone|].
  apply Hframe. rewrite Forall_forall in Hwf. apply Hwf.
  assert (Hin0 : r0 ∈ cluster_motifs (heap st) motif_list value)
    by (rewrite Hr0; left).
  by apply list_elem_of_filter in Hin0 as [_ ?].
Qed.

(** X15 — One cluster without any member in the motif list makes the
    whole call fail: the consensus of the other clusters is not returned. *)
Theorem generate_consensus_motifs_empty_cluster (st : state M)
    (motif_list : list ref) (cluster : pdict (list string)) (sd : ScoreMap)
    (c : string) (value : list string) :
  Forall (fun x => x < next st) motif_list →
  NoDup (keys cluster) →
  (c, value) ∈ cluster →
  cluster_motifs (heap st) motif_list value = [] →
  ∃ e, generate_consensus_motifs st motif_list cluster sd = Raise e.
Proof.
  intros Hwf Hnd Hin Hnil.
  destruct (generate_consensus_motifs st motif_list cluster sd)
    as [[cons st']|e] eqn:Hrun; [|eauto].
  exfalso. unfold generate_consensus_motifs in Hrun.
  destruct (consensus_loop st motif_list sd cluster Hwf [] st cons st')
    as (_ & _ & _ & _ & Hall); [done..|].
  by destruct (Hall c value Hin) as (r & _ & Hne & _).
Qed.
End ConsensusBuilderMore.

(** ** Writing the consensus motifs: renaming in place *)

Section OutputWrapperProofs.
Context {M : Type}.
Variables to_meme to_pwm to_transfac : Motif M -> string.
Variable average_motifs : Motif M -> Motif M -> Z -> Z -> result (Motif M).
Variable get_all_scores : list (Motif M) -> result ScoreMap.

Local Abbreviation out_step := (out_step to_meme to_pwm to_transfac).
Local Abbreviation consensus_motif_out_wrapper :=
  (consensus_motif_out_wrapper to_meme to_pwm to_transfac).

Lemma out_step_eq (cons_format : string) (heap : ref -> Motif M) out c r :
  out_step cons_format (heap, out) (c, r)
  = (motif_string ← convert_motif to_meme to_pwm to_transfac
                      (mkMotif (c +:+ "_" +:+ motif_id (heap r)) (pwm (heap r)))
                      cons_format;
     Ok (fun x => if decide (x = r)
                  then mkMotif (c +:+ "_" +:+ motif_id (heap r)) (pwm (heap r))
                  else heap x,
         out +:+ motif_string +:+ newline +:+ newline)).
Proof. reflexivity. Qed.

Lemma out_loop (cons_format : string) (l : pdict ref) :
  NoDup (values l) →
  ∀ (heap heap' : ref -> Motif M) out out',
    for_each (out_step cons_format) l (heap, out) = Ok (heap', out') →
    (∀ c r, (c, r) ∈ l →
       heap' r = mkMotif (c +:+ "_" +:+ motif_id (heap r)) (pwm (heap r))) ∧
    (∀ x, x ∉ values l → heap' x = heap x).
Proof.
  induction l as [|[c r] l IH]; intros Hnd heap heap' out out' Hloop.
  - injection Hloop as <- <-. split; [|done].
    intros c r Hin. by apply elem_of_nil in Hin.
  - cbn in Hnd. apply NoDup_cons in Hnd as [Hr Hnd].
    cbn [for_each] in Hloop. rewrite out_step_eq in Hloop.
    destruct (convert_motif _ _ _ _ _) as [ms|]; [|done].
    cbn [mbind result_bind] in Hloop.
    destruct (IH Hnd _ _ _ _ Hloop) as [Hren Hframe]. split.
    + intros c' r' [[= -> ->]|Hin]%elem_of_cons.
      * rewrite Hframe by done. by rewrite decide_True.
      * rewrite (Hren c' r' Hin). rewrite decide_False; [done|].
        intros ->. apply Hr. apply list_elem_of_fmap. by exists (c', r).
    + intros x [Hx Hxl]%not_elem_of_cons. rewrite Hframe by done.
      by rewrite decide_False.
Qed.

(** X16 — Whenever the output wrapper returns (the consensus motifs being
    distinct objects), every consensus motif has been renamed in place to
    ["<cluster>_<its identifier>"], its matrix unchanged, and no other motif
    object has been touched. *)
Theorem consensus_motif_out_wrapper_renames (heap heap' : ref -> Motif M)
    (consensus_motifs : pdict ref) (cons_format out : string) :
  NoDup (values consensus_motifs) →
  consensus_motif_out_wrapper heap consensus_motifs cons_format = Ok (heap', out) →
  (∀ cluster r, (cluster, r) ∈ consensus_motifs →
     heap' r = mkMotif (cluster +:+ "_" +:+ motif_id (heap r)) (pwm (heap r))) ∧
  (∀ x, x ∉ values consensus_motifs → heap' x = heap x).
Proof. intros Hnd Hrun. by eapply out_loop. Qed.

(** X17 — Along the pipeline, the output wrapper renames input motifs:
    a cluster with exactly one member is resolved to that member itself, so
    after the consensus motifs are written the motif of the input list carries
    the identifier ["<cluster>_<its identifier>"]. *)
Theorem singleton_cluster_motif_renamed (st st1 : state M)
    (motif_list : list ref) (cluster : pdict (list string)) (sd : ScoreMap)
    (cons : pdict ref) (cons_format out : string) (heap2 : ref -> Motif M)
    (c : string) (value : list string) (r0 : ref) :
  Forall (fun x => x < next st) motif_list →
  NoDup (keys cluster) →
  generate_consensus_motifs average_motifs get_all_scores st motif_list cluster sd
  = Ok (cons, st1) →
  NoDup (values cons) →
  consensus_motif_out_wrapper (heap st1) cons cons_format = Ok (heap2, out) →
  (c, value) ∈ cluster →
  cluster_motifs (heap st) motif_list value = [r0] →
  r0 ∈ motif_list ∧
  motif_id (heap2 r0) = c +:+ "_" +:+ motif_id (heap st r0) ∧
  pwm (heap2 r0) = pwm (heap st r0).
Proof.
  intros Hwf Hnd Hrun Hvals Hout Hin Hone.
  assert (Hr0 : r0 ∈ motif_list).
  { assert (Hin0 : r0 ∈ cluster_motifs (heap st) motif_list value)
      by (rewrite Hone; left).
    by apply list_elem_of_filter in Hin0 as [_ ?]. }
  split; [done|].
  unfold generate_consensus_motifs in Hrun.
  destruct (consensus_loop average_motifs get_all_scores st motif_list sd cluster
              Hwf [] st cons st1) as (_ & Hframe & _ & _ & Hall); [done..|].
  destruct (Hall c value Hin) as (r & Hget & _ & Hsame & _).
  rewrite (Hsame r0 Hone) in Hget.
  assert (Hmem : (c, r0) ∈ cons).
  { clear -Hget. induction cons as [|[c' r'] cons IH]; [done|].
    cbn in Hget. destruct (decide (c = c')) as [->|Hne].
    - injection Hget as ->. left.
    - right. by apply IH. }
  destruct (out_loop cons_format cons Hvals _ _ _ _ Hout) as [Hren _].
  rewrite (Hren c r0 Hmem). cbn [motif_id pwm].
  rewrite Forall_forall in Hwf. by rewrite Hframe by (by apply Hwf).
Qed.
End OutputWrapperProofs.

(** ** Reading a Biopython motif *)

Lemma comprehension_length {X Y} (f : X -> result Y) (l : list X) ys :
  comprehension f l = Ok ys → length ys = length l.
Proof.
  revert ys. induction l as [|x l IH]; intros ys; cbn [comprehension].
  - by intros [= <-].
  - destruct (f x); [|done]. cbn [mbind result_bind].
    destruct (comprehension f l); [|done]. cbn [mbind result_bind].
    intros [= <-]. cbn. f_equal. by apply IH.
Qed.

(** X18 — For counts given as four rows (A, C, G, T) of [length] entries
    each, the conversion returns [length - 1] rows, row [p] holding the four
    counts of position [p]: the matrix is transposed and its last position is
    dropped; the conversion never reads that last position. *)
Theorem get_motifs_rows_drops_last (cA cC cG cT : list Q) (n : nat) :
  length cA = n → length cC = n → length cG = n → length cT = n →
  ∃ rows,
    get_motifs_rows [cA; cC; cG; cT] n = Ok rows ∧
    length rows = n - 1 ∧
    (∀ p a c g t, p < n - 1 →
       cA !! p = Some a → cC !! p = Some c → cG !! p = Some g → cT !! p = Some t →
       rows !! p = Some [a; c; g; t]) ∧
    get_motifs_rows [take (n - 1) cA; take (n - 1) cC; take (n - 1) cG;
                     take (n - 1) cT] n = Ok rows.
Proof.
  intros HA HC HG HT.
  assert (Hrows : ∀ (dA dC dG dT : list Q) (m : nat),
    m ≤ length dA → m ≤ length dC → m ≤ length dG → m ≤ length dT →
    (∀ p, p < m → dA !! p = cA !! p ∧ dC !! p = cC !! p ∧
                  dG !! p = cG !! p ∧ dT !! p = cT !! p) →
    comprehension (fun pos_id =>
      comprehension (fun letter =>
        row ← list_index [dA; dC; dG; dT] letter; list_index row pos_id) (seq 0 4))
      (seq 0 m)
    = Ok ((fun p => [default 0%Q (cA !! p); default 0%Q (cC !! p);
                     default 0%Q (cG !! p); default 0%Q (cT !! p)]) <$> seq 0 m)).
  { intros dA dC dG dT m H1 H2 H3 H4 Hagree. apply comprehension_ok.
    intros p Hp%elem_of_seq.
    destruct (Hagree p) as (EA & EC & EG & ET); [lia|].
    destruct (lookup_lt_is_Some_2 dA p) as [a Ha]; [lia|].
    destruct (lookup_lt_is_Some_2 dC p) as [c Hc]; [lia|].
    destruct (lookup_lt_is_Some_2 dG p) as [g Hg]; [lia|].
    destruct (lookup_lt_is_Some_2 dT p) as [t Ht]; [lia|].
    cbn. unfold list_index. rewrite Ha, Hc, Hg, Ht. cbn.
    by rewrite <- EA, <- EC, <- EG, <- ET, Ha, Hc, Hg, Ht. }
  eexists. split; [|split; [|split]].
  - unfold get_motifs_rows. apply Hrows; [lia..|done].
  - by rewrite length_fmap, length_seq.
  - intros p a c g t Hp Ha Hc Hg Ht.
    rewrite list_lookup_fmap, lookup_seq_lt by done.
    cbn. by rewrite Ha, Hc, Hg, Ht.
  - unfold get_motifs_rows. apply Hrows; [rewrite length_take; lia..|].
    intros p Hp. by rewrite !lookup_take_lt.
Qed.

(** ** GC content *)




Section GcContentProofs.
Context {M : Type}.
Variable pwm_values : Motif M -> list Q.
Variable motif_len : Motif M -> nat.

Local Abbreviation gc_stats := (gc_stats pwm_values motif_len).
Local Abbreviation get_gc_content_loop := (get_gc_content_loop pwm_values motif_len).
Local Abbreviation get_gc_content := (get_gc_content pwm_values motif_len).




Lemma gc_sum_loop_outcome (m_pwm : list Q) (xs : list nat) acc :
  (∀ x, x ∈ xs → x + 1 < length m_pwm) →
  ((∃ x, x ∈ xs ∧ length m_pwm ≤ x + 2) →
   gc_sum_loop m_pwm xs acc = GcRaise GcIndexError) ∧
  ((∀ x, x ∈ xs → x + 2 < length m_pwm) →
   ∃ s, gc_sum_loop m_pwm xs acc = GcOk s).
Proof.
  revert acc. induction xs as [|x xs IH]; intros acc Hxs.
  - split; [by intros (x & Hx%elem_of_nil & _)|]. intros _. by exists acc.
  - cbn [gc_sum_loop].
    destruct (lookup_lt_is_Some_2 m_pwm (x + 1)) as [c ->]; [apply Hxs; left|].
    destruct (m_pwm !! (x + 2)) as [g|] eqn:Hg.
    + apply lookup_lt_Some in Hg.
      destruct (IH (acc + (c + g))%Q) as [IH1 IH2].
      { intros y Hy. apply Hxs. by right. }
      split.
      * intros (y & [->|Hy]%elem_of_cons & Hle); [lia|]. apply IH1. eauto.
      * intros Hall. apply IH2. intros y Hy. apply Hall. by right.
    + apply lookup_ge_None in Hg. split; [done|].
      intros Hall. specialize (Hall x (list_elem_of_here _ _)). lia.
Qed.

(** X20 — The statistics of one motif fail with [IndexError] exactly when
    the number of values in its PWM text leaves remainder 2 modulo 4; one or
    three surplus values go unnoticed.  Otherwise they fail with
    [ZeroDivisionError] exactly when the motif length is zero. *)
Theorem gc_stats_failures (m : Motif M) :
  (gc_stats m = GcRaise GcIndexError ↔ length (pwm_values m) mod 4 = 2) ∧
  (gc_stats m = GcRaise GcZeroDivisionError ↔
   length (pwm_values m) mod 4 ≠ 2 ∧ motif_len m = 0).
Proof.
  set (n := length (pwm_values m)).
  pose proof (Nat.div_mod_eq n 4) as Hdm.
  pose proof (Nat.mod_upper_bound n 4 ltac:(done)) as Hlt.
  assert (Hin : ∀ x, x ∈ range_by_4 n ↔ ∃ k, x = 4 * k ∧ k < (n - 1 + 3) / 4).
  { intros x. unfold range_by_4. rewrite list_elem_of_fmap.
    split; intros (k & -> & Hk); exists k; (split; [done|]).
    - apply elem_of_seq in Hk. lia.
    - apply elem_of_seq. lia. }
  pose proof (Nat.div_mod_eq (n - 1 + 3) 4) as Hdm'.
  pose proof (Nat.mod_upper_bound (n - 1 + 3) 4 ltac:(done)) as Hlt'.
  destruct (gc_sum_loop_outcome (pwm_values m) (range_by_4 n) 0%Q) as [Hraise Hok].
  { intros x (k & -> & Hk)%Hin. fold n. lia. }
  fold n in Hraise, Hok.
  destruct (decide (n mod 4 = 2)) as [H2|H2].
  - assert (Hloop : gc_sum_loop (pwm_values m) (range_by_4 n) 0 = GcRaise GcIndexError).
    { apply Hraise. exists (4 * (n / 4)). split; [|lia].
      apply Hin. exists (n / 4). split; [done|]. lia. }
    unfold gc_stats. fold n. rewrite Hloop. split; split; try done.
    intros [? _]. done.
  - destruct Hok as [s Hs].
    { intros x (k & -> & Hk)%Hin. lia. }
    unfold gc_stats. fold n. rewrite Hs. split.
    + split; [|done]. by destruct (decide (motif_len m = 0)).
    + destruct (decide (motif_len m = 0)) as [H0|H0]; split; try done.
      intros [_ ?]. done.
Qed.

Lemma get_gc_content_loop_keys (motifs : list (Motif M)) stats stats' :
  get_gc_content_loop motifs stats = GcOk stats' →
  (∀ k, k ∈ keys stats → k ∈ keys stats') ∧
  ∀ m, m ∈ motifs → replace_tab (motif_id m) ∈ keys stats'.
Proof.
  revert stats. induction motifs as [|m motifs IH]; intros stats Hloop.
  - injection Hloop as <-. split; [done|]. intros m Hm. by apply elem_of_nil in Hm.
  - cbn [get_gc_content_loop] in Hloop.
    destruct (gc_stats m) as [[name v]|] eqn:Hm; [|done].
    assert (Hname : name = replace_tab (motif_id m)).
    { unfold gc_stats in Hm. destruct (gc_sum_loop _ _ _); [|done].
      destruct (decide _); [done|]. by injection Hm as <- _. }
    destruct (IH _ Hloop) as [Hkeep Hrest].
    assert (Hset : ∀ k, k ∈ keys (setitem stats name v) ↔ k = name ∨ k ∈ keys stats).
    { intros k. split.
      - intros (w & Hw & _)%getitem_elem. rewrite getitem_setitem in Hw.
        destruct (decide (k = name)); [by left|]. right. by eapply getitem_Ok_key.
      - intros Hk. destruct (decide (k = name)) as [->|Hne].
        + apply (getitem_Ok_key _ _ v). rewrite getitem_setitem.
          by rewrite decide_True.
        + destruct Hk as [?|Hk]; [done|].
          destruct (getitem_elem _ _ Hk) as (w & Hw & _).
          apply (getitem_Ok_key _ _ w). rewrite getitem_setitem.
          by rewrite decide_False. }
    split.
    + intros k Hk. apply Hkeep, Hset. by right.
    + intros m' [->|Hm']%elem_of_cons; [|by apply Hrest].
      apply Hkeep, Hset. by left.
Qed.

(** X21 — Along the pipeline, every motif reported as dissimilar has its
    statistics: when the score table is keyed by identifiers of the motif
    list, each label returned by the classifier on the distance matrix is a
    key of the statistics computed for the motif list, so the report of
    dissimilar motifs never meets a missing key. *)
Theorem dissimilar_motifs_have_stats (motifs : list (Motif M))
    (score_dict : ScoreMap) (df : DataFrame) (t : Q) (res : list string)
    (motifs_stats : pdict (Q * nat)) :
  (∀ k, k ∈ keys score_dict → k ∈ motif_id <$> motifs) →
  generate_similarity_matrix score_dict = Ok df →
  get_dissimilar_motifs df t = Ok res →
  get_gc_content motifs = GcOk motifs_stats →
  ∀ k, k ∈ res → ∃ stats, getitem motifs_stats k = Ok stats.
Proof.
  intros Hids Hdf Hres Hstats k Hk.
  rewrite get_dissimilar_motifs_closed in Hres. injection Hres as <-.
  apply list_elem_of_fmap in Hk as ([c vec] & -> & Hin). cbn [fst].
  apply list_elem_of_In, filter_In in Hin as [Hin _].
  apply list_elem_of_In, (subseteq_take _ _ _) in Hin.
  destruct (generate_similarity_matrix_Ok_table _ _ Hdf)
    as (k0 & inner0 & rest & sd & _ & -> & _).
  apply similarity_table_column in Hin as [(a & -> & Ha)%list_elem_of_fmap _].
  apply Hids, list_elem_of_fmap in Ha as (m & -> & Hm).
  destruct (get_gc_content_loop_keys _ _ _ Hstats) as [_ Hkeys].
  destruct (getitem_elem _ _ (Hkeys m Hm)) as (stats & Hget & _). eauto.
Qed.
End GcContentProofs.

(** ** The identifier of a consensus *)

Lemma string_append_assoc (s1 s2 s3 : string) :
  (s1 +:+ s2) +:+ s3 = s1 +:+ (s2 +:+ s3).
Proof.
  induction s1 as [|a s1 IH]; [done|].
  change (String a ((s1 +:+ s2) +:+ s3) = String a (s1 +:+ (s2 +:+ s3))).
  by rewrite IH.
Qed.

Lemma join_ids_cons (a b : string) (rest : list string) :
  join_ids (a :: b :: rest) = a +:+ "_" +:+ join_ids (b :: rest).
Proof. done. Qed.

Lemma join_ids_merged (pre post : list string) (a b : string) :
  join_ids (pre ++ (a +:+ "_" +:+ b) :: post) = join_ids (pre ++ a :: b :: post).
Proof.
  induction pre as [|x pre IH].
  - cbn [app]. rewrite (join_ids_cons a b post). destruct post as [|c post].
    + done.
    + rewrite !join_ids_cons. by rewrite !string_append_assoc.
  - destruct pre as [|y pre].
    + cbn [app] in *. rewrite !join_ids_cons. by rewrite IH.
    + cbn [app] in *. rewrite !join_ids_cons. by rewrite IH.
Qed.

Lemma list_remove_Permutation (x : ref) (l l' : list ref) :
  list_remove x l = Ok l' → l ≡ₚ x :: l'.
Proof.
  revert l'. induction l as [|y l IH]; intros l'; simpl; [done|].
  destruct (decide (x = y)) as [->|Hne].
  - by intros [= ->].
  - destruct (list_remove x l) as [l''|] eqn:Hl; simpl; [|done].
    intros [= <-]. rewrite (IH l'' eq_refl). apply Permutation_swap.
Qed.

Section ConsensusIdentifier.
Context {M : Type}.
Variable average_motifs : Motif M -> Motif M -> Z -> Z -> result (Motif M).
Variable get_all_scores : list (Motif M) -> result ScoreMap.

Local Abbreviation merge_level := (merge_level average_motifs).
Local Abbreviation generate_consensus_motif_rec :=
  (generate_consensus_motif_rec average_motifs get_all_scores).
Local Abbreviation generate_consensus_motif :=
  (generate_consensus_motif average_motifs get_all_scores).

Lemma merge_level_ids (st st' : state M) sd :
  Forall (fun x => x < next st) (motifs st) →
  merge_level st sd = Ok st' →
  Forall (fun x => x < next st') (motifs st') ∧
  ∃ id_1 id_2 rest,
    (fun x => motif_id (heap st x)) <$> motifs st ≡ₚ id_1 :: id_2 :: rest ∧
    (fun x => motif_id (heap st' x)) <$> motifs st'
      ≡ₚ (id_1 +:+ "_" +:+ id_2) :: rest.
Proof.
  intros Hwf Hlevel.
  destruct (merge_level_inv average_motifs _ _ _ Hlevel)
    as (m1 & m2 & s & l1 & am & Hpair & Hrm1 & Hrm2 & Hnext & _ & _ & Hnew & Hold).
  apply elem_of_combinations2 in Hpair as (p1 & p2 & p3 & Hl).
  apply list_remove_Permutation in Hrm1, Hrm2.
  assert (Hperm : motifs st' ≡ₚ (p1 ++ p2 ++ p3) ++ [next st]).
  { apply (Permutation_cons_inv (a := m2)), (Permutation_cons_inv (a := m1)).
    rewrite <- Hrm2, <- Hrm1, Hl. solve_Permutation. }
  assert (Hrest : Forall (fun x => x < next st) (p1 ++ p2 ++ p3)).
  { rewrite Hl in Hwf.
    apply Forall_app in Hwf as [H1 [_ Hwf]%Forall_cons].
    apply Forall_app in Hwf as [H2 [_ H3]%Forall_cons].
    rewrite !Forall_app. done. }
  split.
  - rewrite Hperm, Hnext. apply Forall_app. split.
    + eapply Forall_impl; [exact Hrest|]. cbn. lia.
    + repeat constructor.
  - exists (motif_id (heap st m1)), (motif_id (heap st m2)),
      ((fun x => motif_id (heap st x)) <$> (p1 ++ p2 ++ p3)).
    split.
    + rewrite Hl. rewrite !fmap_app, !fmap_cons, !fmap_app. solve_Permutation.
    + rewrite Hperm, fmap_app. cbn [fmap list_fmap].
      rewrite Hnew. cbn [motif_id].
      rewrite <- Permutation_cons_append. apply Permutation_skip.
      assert (Heq : (fun x => motif_id (heap st' x)) <$> (p1 ++ p2 ++ p3)
                    = (fun x => motif_id (heap st x)) <$> (p1 ++ p2 ++ p3)).
      { apply Forall_fmap_ext. eapply Forall_impl; [exact Hrest|].
        intros x Hx. cbn beta in *. rewrite Hold; [done|lia]. }
      by rewrite Heq.
Qed.

Lemma generate_consensus_motif_rec_ids depth (st st' : state M) sd r :
  Forall (fun x => x < next st) (motifs st) →
  generate_consensus_motif_rec depth st sd = Ok (r, st') →
  ∃ ids,
    ids ≡ₚ (fun x => motif_id (heap st x)) <$> motifs st ∧
    motif_id (heap st' r) = join_ids ids.
Proof.
  revert st sd. induction depth as [|depth IH]; intros st sd Hwf Hrun; [done|].
  cbn [generate_consensus_motif_rec] in Hrun.
  destruct (decide (length (motifs st) = 1)) as [Hone|Hmany].
  - destruct (motifs st) as [|x [|y l]] eqn:Hl; try done.
    cbn in Hrun. injection Hrun as <- <-.
    by exists [motif_id (heap st x)].
  - destruct (merge_level st sd) as [st1|e] eqn:Hlevel; [|done].
    cbn [mbind result_bind] in Hrun.
    destruct (get_all_scores _) as [sd1|]; [|done].
    cbn [mbind result_bind] in Hrun.
    destruct (merge_level_ids _ _ _ Hwf Hlevel)
      as (Hwf1 & id_1 & id_2 & rest & Hids & Hids1).
    destruct (IH _ _ Hwf1 Hrun) as (ids1 & Hperm1 & Hid).
    rewrite Hids1 in Hperm1.
    assert (Hin : id_1 +:+ "_" +:+ id_2 ∈ ids1) by (rewrite Hperm1; left).
    apply list_elem_of_split in Hin as (pre & post & ->).
    exists (pre ++ id_1 :: id_2 :: post). split.
    + rewrite <- Permutation_middle in Hperm1.
      apply Permutation_cons_inv in Hperm1.
      rewrite Hids, <- Hperm1. solve_Permutation.
    + by rewrite Hid, join_ids_merged.
Qed.

(** X22 — The identifier of a returned consensus is made of the
    identifiers of all the motifs of the working list, each used exactly as
    often as it occurs in the list, joined by ["_"] in some order. *)
Theorem generate_consensus_motif_identifier (st st' : state M) (sd : ScoreMap)
    (r : ref) :
  Forall (fun x => x < next st) (motifs st) →
  generate_consensus_motif st sd = Ok (r, st') →
  ∃ ids,
    ids ≡ₚ (fun x => motif_id (heap st x)) <$> motifs st ∧
    motif_id (heap st' r) = join_ids ids.
Proof. intros Hwf Hrun. by eapply generate_consensus_motif_rec_ids. Qed.
End ConsensusIdentifier.

(** ** The further properties at work *)

Lemma getitem_Ok_elem {V} (d : pdict V) k v : getitem d k = Ok v → (k, v) ∈ d.
Proof.
  induction d as [|[k0 v0] d IH]; simpl; [done|].
  destruct (decide (k = k0)) as [->|Hne]; intros H.
  - injection H as ->. left.
  - right. by apply IH.
Qed.

Lemma score_dict3_unit_interval (a b : string) (s : PairwiseScore) :
  getitem2 Scenario.score_dict3 a b = Ok s →
  (0 <= similarity s)%Q ∧ (similarity s <= 1)%Q.
Proof.
  unfold getitem2. intros Hs.
  destruct (getitem Scenario.score_dict3 a) as [inner|] eqn:Ha; [|done].
  cbn in Hs. apply getitem_Ok_elem in Ha, Hs.
  unfold Scenario.score_dict3 in Ha.
  repeat (apply elem_of_cons in Ha as [Ha|Ha];
          [injection Ha as -> ->;
           repeat (apply elem_of_cons in Hs as [Hs|Hs];
                   [injection Hs as -> ->; split; by cbv|]);
           by apply elem_of_nil in Hs|]).
  by apply elem_of_nil in Ha.
Qed.

Lemma score_dict3_self_similarity (i : string) (s : PairwiseScore) :
  getitem2 Scenario.score_dict3 i i = Ok s → (similarity s == 1)%Q.
Proof.
  unfold getitem2, Scenario.score_dict3. cbn.
  repeat (case_decide; [subst; cbn; by intros [= <-]|]). done.
Qed.

Lemma generate_similarity_matrix_shape_witness :
  ∃ df,
    generate_similarity_matrix Scenario.score_dict3 = Ok df ∧
    df_index df = ["A"; "B"; "C"] ∧
    NoDup (keys (df_columns df)).
Proof.
  destruct (generate_similarity_matrix Scenario.score_dict3) as [df|e] eqn:Hdf;
    [|by vm_compute in Hdf].
  exists df. split; [done|].
  destruct (generate_similarity_matrix_shape Scenario.score_dict3 df Hdf)
    as (k0 & inner0 & rest & Hsd & Hidx & Hnd & _).
  split; [|exact Hnd]. rewrite Hidx. by injection Hsd as <- <- <-.
Defined.

Lemma generate_similarity_matrix_range_witness :
  ∃ df,
    generate_similarity_matrix Scenario.score_dict3 = Ok df ∧
    Forall (fun kv => Forall (fun v => (0 <= v)%Q ∧ (v <= 1)%Q) kv.2)
      (df_columns df).
Proof.
  destruct (generate_similarity_matrix Scenario.score_dict3) as [df|e] eqn:Hdf;
    [|by vm_compute in Hdf].
  exists df. split; [done|].
  exact (generate_similarity_matrix_range Scenario.score_dict3 df Hdf
           score_dict3_unit_interval).
Defined.

Lemma get_dissimilar_motifs_antitone_witness :
  (1 # 2 <= 95 # 100)%Q ∧
  ∃ res res',
    get_dissimilar_motifs Scenario.matrix3 (1 # 2) = Ok res ∧
    get_dissimilar_motifs Scenario.matrix3 (95 # 100) = Ok res' ∧
    res' `sublist_of` res.
Proof.
  assert (Hle : (1 # 2 <= 95 # 100)%Q) by (by cbv).
  split; [exact Hle|].
  destruct (get_dissimilar_motifs_antitone Scenario.matrix3 _ _ Hle)
    as (res & res' & Hres & Hres' & Hsub & _).
  by exists res, res'.
Defined.

Lemma dissimilar_needs_distant_self_witness :
  keysets_coincide Scenario.score_dict3 ∧
  labels_unique Scenario.score_dict3 ∧
  ∃ df res,
    generate_similarity_matrix Scenario.score_dict3 = Ok df ∧
    get_dissimilar_motifs df (1 # 2) = Ok res ∧
    res = [].
Proof.
  split; [exact score_dict3_keysets|]. split; [exact score_dict3_labels_unique|].
  destruct (generate_similarity_matrix Scenario.score_dict3) as [df|e] eqn:Hdf;
    [|by vm_compute in Hdf].
  destruct (get_dissimilar_motifs df (1 # 2)) as [res|e] eqn:Hres.
  - exists df, res. split; [done|]. split; [done|].
    destruct (dissimilar_needs_distant_self Scenario.score_dict3 df (1 # 2) res
                score_dict3_keysets score_dict3_labels_unique Hdf Hres)
      as [_ Hempty].
    apply Hempty; [by cbv|exact score_dict3_self_similarity].
  - rewrite get_dissimilar_motifs_closed in Hres. done.
Defined.

Lemma get_cluster_partition_witness :
  ∃ cluster,
    get_cluster [1%Z; 2%Z; 1%Z] ["A"; "B"; "C"] = Ok cluster ∧
    concat (values cluster) ≡ₚ ["A"; "B"; "C"].
Proof.
  destruct (get_cluster [1%Z; 2%Z; 1%Z] ["A"; "B"; "C"]) as [cluster|e] eqn:Hrun;
    [|by vm_compute in Hrun].
  exists cluster. split; [done|].
  by destruct (get_cluster_partition _ _ cluster Hrun) as [Hperm _].
Defined.


Lemma merge_level_offset_of_last_pair_witness :
  motifs Scenario.st3 = [0] ++ [1; 2] ∧
  scores_cover Scenario.score_dict3 (heap Scenario.st3 <$> motifs Scenario.st3) ∧
  ∃ st' merge_1 merge_2,
    merge_level Scenario.average Scenario.st3 Scenario.score_dict3 = Ok st' ∧
    trace st' = trace Scenario.st3 ++ [EvAverage merge_1 merge_2 7 (-1)].
Proof.
  split; [reflexivity|]. split; [exact score_dict3_cover|].
  destruct (merge_level_offset_of_last_pair Scenario.average Scenario.st3
              Scenario.score_dict3 [0] 1 2 eq_refl score_dict3_cover)
    as (merge_1 & merge_2 & s & Hs & Hreturns & _).
  injection Hs as <-.
  destruct (Hreturns (mkMotif "" tt) eq_refl) as (st' & Hlevel & Htrace & _).
  by exists st', merge_1, merge_2.
Defined.

Lemma negative_scores_pairs (p : ref * ref) :
  p ∈ combinations2 (motifs Pipeline.st2) →
  ∃ s, pair_score (heap Pipeline.st2) Pipeline.negative_scores p = Ok s ∧
       (similarity s < 0)%Q.
Proof.
  cbn. intros ->%list_elem_of_singleton.
  exists (mkScore (-1 # 10) 0 1). split; [reflexivity|by cbv].
Qed.

Lemma generate_consensus_motif_all_negative_witness :
  length (motifs Pipeline.st2) ≠ 1 ∧
  generate_consensus_motif Scenario.average Scenario.all_scores
    Pipeline.st2 Pipeline.negative_scores
  = Raise (UnboundLocalError "merge_1").
Proof.
  assert (Hlen : length (motifs Pipeline.st2) ≠ 1) by (cbn; lia).
  split; [exact Hlen|].
  exact (generate_consensus_motif_all_negative Scenario.average
           Scenario.all_scores Pipeline.st2 Pipeline.negative_scores
           Hlen negative_scores_pairs).
Defined.

Lemma generate_consensus_motif_failures_witness :
  ∃ e,
    generate_consensus_motif_rec Scenario.bounded_average Scenario.all_scores 4
      Scenario.st3 Scenario.score_dict3 = Raise e ∧
    ((∃ k, e = KeyError k) ∨ e = UnboundLocalError "merge_1" ∨
     (∃ a b pos orientation,
        Scenario.bounded_average a b pos orientation = Raise e) ∨
     (∃ ms, Scenario.all_scores ms = Raise e) ∨
     (e = RecursionError ∧ (4 = 0 ∨ 4 < length (motifs Scenario.st3)))).
Proof.
  destruct (generate_consensus_motif_rec Scenario.bounded_average
              Scenario.all_scores 4 Scenario.st3 Scenario.score_dict3)
    as [x|e] eqn:Hrun; [by vm_compute in Hrun|].
  exists e. split; [done|].
  exact (generate_consensus_motif_failures _ _ _ _ _ e Hrun).
Defined.

Lemma generate_consensus_motif_fresh_witness :
  length (motifs Scenario.st3) ≠ 1 ∧
  ∃ r st',
    generate_consensus_motif Scenario.average Scenario.all_scores
      Scenario.st3 Scenario.score_dict3 = Ok (r, st') ∧
    motifs st' = [r] ∧ r ∉ motifs Scenario.st3.
Proof.
  assert (Hlen : length (motifs Scenario.st3) ≠ 1) by (cbn; lia).
  split; [exact Hlen|].
  destruct (generate_consensus_motif Scenario.average Scenario.all_scores
              Scenario.st3 Scenario.score_dict3) as [[r st']|e] eqn:Hrun;
    [|by vm_compute in Hrun].
  exists r, st'. split; [done|].
  destruct (generate_consensus_motif_fresh _ _ _ _ _ r Hrun Hlen)
    as (Hone & _ & _ & Hnew).
  split; [exact Hone|]. apply Hnew. cbn. repeat constructor.
Defined.

Lemma generate_consensus_motifs_frame_witness :
  ∃ cons st',
    generate_consensus_motifs Scenario.average Scenario.all_scores
      Pipeline.st0 Pipeline.motif_list3 Pipeline.clusters Scenario.score_dict3
    = Ok (cons, st') ∧
    ∀ x, x < next Pipeline.st0 → heap st' x = heap Pipeline.st0 x.
Proof.
  destruct (generate_consensus_motifs Scenario.average Scenario.all_scores
              Pipeline.st0 Pipeline.motif_list3 Pipeline.clusters
              Scenario.score_dict3) as [[cons st']|e] eqn:Hrun;
    [|by vm_compute in Hrun].
  exists cons, st'. split; [done|].
  by destruct (generate_consensus_motifs_frame _ _ _ _ _ _ _ _ Hrun) as [_ Hframe].
Defined.

Lemma motif_list3_wf : Forall (fun x => x < next Pipeline.st0) Pipeline.motif_list3.
Proof. cbn. repeat constructor. Qed.

Lemma clusters_NoDup : NoDup (keys Pipeline.clusters).
Proof. apply (bool_decide_unpack _). by vm_compute. Qed.

Lemma stray_clusters_NoDup : NoDup (keys Pipeline.stray_clusters).
Proof. apply (bool_decide_unpack _). by vm_compute. Qed.

Lemma generate_consensus_motifs_result_witness :
  Forall (fun x => x < next Pipeline.st0) Pipeline.motif_list3 ∧
  NoDup (keys Pipeline.clusters) ∧
  ∃ cons st',
    generate_consensus_motifs Scenario.average Scenario.all_scores
      Pipeline.st0 Pipeline.motif_list3 Pipeline.clusters Scenario.score_dict3
    = Ok (cons, st') ∧
    keys cons = keys Pipeline.clusters ∧
    getitem cons "Cluster_2" = Ok 2.
Proof.
  split; [exact motif_list3_wf|]. split; [exact clusters_NoDup|].
  destruct (generate_consensus_motifs Scenario.average Scenario.all_scores
              Pipeline.st0 Pipeline.motif_list3 Pipeline.clusters
              Scenario.score_dict3) as [[cons st']|e] eqn:Hrun;
    [|by vm_compute in Hrun].
  exists cons, st'. split; [done|].
  destruct (generate_consensus_motifs_result _ _ _ _ _ _ _ _
              motif_list3_wf clusters_NoDup Hrun) as [Hkeys Hall].
  split; [exact Hkeys|].
  destruct (Hall "Cluster_2" ["C"]) as (r & Hget & _ & Hsingle & _).
  { right. left. }
  by destruct (Hsingle 2 eq_refl) as [-> _].
Defined.

Lemma generate_consensus_motifs_empty_cluster_witness :
  Forall (fun x => x < next Pipeline.st0) Pipeline.motif_list3 ∧
  NoDup (keys Pipeline.stray_clusters) ∧
  ("Cluster_2", ["D"]) ∈ Pipeline.stray_clusters ∧
  cluster_motifs (heap Pipeline.st0) Pipeline.motif_list3 ["D"] = [] ∧
  ∃ e,
    generate_consensus_motifs Scenario.average Scenario.all_scores
      Pipeline.st0 Pipeline.motif_list3 Pipeline.stray_clusters
      Scenario.score_dict3 = Raise e.
Proof.
  assert (Hin : ("Cluster_2", ["D"]) ∈ Pipeline.stray_clusters) by (right; left).
  split; [exact motif_list3_wf|]. split; [exact stray_clusters_NoDup|].
  split; [exact Hin|]. split; [reflexivity|].
  exact (generate_consensus_motifs_empty_cluster Scenario.average
           Scenario.all_scores Pipeline.st0 Pipeline.motif_list3
           Pipeline.stray_clusters Scenario.score_dict3 "Cluster_2" ["D"]
           motif_list3_wf stray_clusters_NoDup Hin eq_refl).
Defined.

Lemma consensus_motif_out_wrapper_renames_witness :
  NoDup (values [("Cluster_1", 0); ("Cluster_2", 2)]) ∧
  ∃ heap' out,
    consensus_motif_out_wrapper Pipeline.to_text Pipeline.to_text Pipeline.to_text
      Scenario.heap3 [("Cluster_1", 0); ("Cluster_2", 2)] "pwm" = Ok (heap', out) ∧
    heap' 2 = mkMotif "Cluster_2_C" tt ∧
    heap' 1 = Scenario.heap3 1.
Proof.
  assert (Hnd : NoDup (values [("Cluster_1", 0); ("Cluster_2", 2)]))
    by (apply (bool_decide_unpack _); by vm_compute).
  split; [exact Hnd|].
  destruct (consensus_motif_out_wrapper Pipeline.to_text Pipeline.to_text
              Pipeline.to_text Scenario.heap3
              [("Cluster_1", 0); ("Cluster_2", 2)] "pwm")
    as [[heap' out]|e] eqn:Hrun; [|by vm_compute in Hrun].
  exists heap', out. split; [done|].
  destruct (consensus_motif_out_wrapper_renames _ _ _ _ heap' _ _ out Hnd Hrun)
    as [Hren Hother].
  split.
  - apply (Hren "Cluster_2" 2). right. left.
  - apply Hother. cbn. intros Hin.
    repeat (apply elem_of_cons in Hin as [Hin|Hin]; [done|]).
    by apply elem_of_nil in Hin.
Defined.

Lemma singleton_cluster_motif_renamed_witness :
  ∃ cons st1 heap2 out,
    generate_consensus_motifs Scenario.average Scenario.all_scores
      Pipeline.st0 Pipeline.motif_list3 Pipeline.clusters Scenario.score_dict3
    = Ok (cons, st1) ∧
    NoDup (values cons) ∧
    consensus_motif_out_wrapper Pipeline.to_text Pipeline.to_text Pipeline.to_text
      (heap st1) cons "meme" = Ok (heap2, out) ∧
    ("Cluster_2", ["C"]) ∈ Pipeline.clusters ∧
    cluster_motifs (heap Pipeline.st0) Pipeline.motif_list3 ["C"] = [2] ∧
    motif_id (heap2 2) = "Cluster_2_C".
Proof.
  destruct (generate_consensus_motifs Scenario.average Scenario.all_scores
              Pipeline.st0 Pipeline.motif_list3 Pipeline.clusters
              Scenario.score_dict3) as [[cons st1]|e] eqn:Hrun;
    [|by vm_compute in Hrun].
  assert (Hnd : NoDup (values cons)).
  { assert (Hcons : cons = [("Cluster_1", 3); ("Cluster_2", 2)]).
    { vm_compute in Hrun. by injection Hrun as <- _. }
    rewrite Hcons. apply (bool_decide_unpack _). by vm_compute. }
  destruct (consensus_motif_out_wrapper Pipeline.to_text Pipeline.to_text
              Pipeline.to_text (heap st1) cons "meme")
    as [[heap2 out]|e] eqn:Hout.
  - assert (Hin : ("Cluster_2", ["C"]) ∈ Pipeline.clusters) by (right; left).
    exists cons, st1, heap2, out.
    split; [done|]. split; [exact Hnd|]. split; [done|]. split; [exact Hin|].
    split; [reflexivity|].
    by destruct (singleton_cluster_motif_renamed _ _ _ _ _ _ _ _ _ _ _ _ _ _
                   "Cluster_2" ["C"] 2 motif_list3_wf clusters_NoDup Hrun Hnd
                   Hout Hin eq_refl) as (_ & Hid & _).
  - exfalso. unfold consensus_motif_out_wrapper in Hout.
    apply for_each_Raise_step in Hout as (? & ? & ? & Hstep).
    revert Hstep. unfold out_step. destruct x as [h o], x0 as [c r]. done.
Defined.

Lemma get_motifs_rows_drops_last_witness :
  length [1; 2; 3]%Q = 3 ∧ length [4; 5; 6]%Q = 3 ∧
  length [7; 8; 9]%Q = 3 ∧ length [10; 11; 12]%Q = 3 ∧
  ∃ rows,
    get_motifs_rows [[1; 2; 3]; [4; 5; 6]; [7; 8; 9]; [10; 11; 12]]%Q 3 = Ok rows ∧
    length rows = 2.
Proof.
  repeat (split; [reflexivity|]).
  destruct (get_motifs_rows_drops_last [1; 2; 3]%Q [4; 5; 6]%Q [7; 8; 9]%Q
              [10; 11; 12]%Q 3 eq_refl eq_refl eq_refl eq_refl)
    as (rows & Hrun & Hlen & _).
  by exists rows.
Defined.



Lemma score_dict3_ids (k : string) :
  k ∈ keys Scenario.score_dict3 →
  k ∈ motif_id <$> (Scenario.heap3 <$> Pipeline.motif_list3).
Proof. done. Qed.

Lemma dissimilar_motifs_have_stats_witness :
  ∃ df res motifs_stats,
    generate_similarity_matrix Scenario.score_dict3 = Ok df ∧
    get_dissimilar_motifs df (-1) = Ok res ∧
    get_gc_content Pipeline.pwm_values Pipeline.motif_len
      (Scenario.heap3 <$> Pipeline.motif_list3) = GcOk motifs_stats ∧
    "A" ∈ res ∧
    ∃ stats, getitem motifs_stats "A" = Ok stats.
Proof.
  destruct (generate_similarity_matrix Scenario.score_dict3) as [df|e] eqn:Hdf;
    [|by vm_compute in Hdf].
  destruct (get_gc_content Pipeline.pwm_values Pipeline.motif_len
              (Scenario.heap3 <$> Pipeline.motif_list3))
    as [motifs_stats|e] eqn:Hstats; [|by vm_compute in Hstats].
  assert (Hres : get_dissimilar_motifs df (-1) = Ok ["A"; "B"]).
  { vm_compute in Hdf. injection Hdf as <-. by vm_compute. }
  assert (HA : "A" ∈ ["A"; "B"]) by left.
  exists df, ["A"; "B"], motifs_stats.
  split; [done|]. split; [exact Hres|]. split; [done|]. split; [exact HA|].
  exact (dissimilar_motifs_have_stats Pipeline.pwm_values Pipeline.motif_len
           _ _ df (-1) ["A"; "B"] motifs_stats score_dict3_ids Hdf Hres Hstats
           "A" HA).
Defined.

Lemma generate_consensus_motif_identifier_witness :
  Forall (fun x => x < next Scenario.st3) (motifs Scenario.st3) ∧
  ∃ r st' ids,
    generate_consensus_motif Scenario.average Scenario.all_scores
      Scenario.st3 Scenario.score_dict3 = Ok (r, st') ∧
    ids ≡ₚ ["A"; "B"; "C"] ∧
    motif_id (heap st' r) = join_ids ids.
Proof.
  assert (Hwf : Forall (fun x => x < next Scenario.st3) (motifs Scenario.st3))
    by (cbn; repeat constructor).
  split; [exact Hwf|].
  destruct (generate_consensus_motif Scenario.average Scenario.all_scores
              Scenario.st3 Scenario.score_dict3) as [[r st']|e] eqn:Hrun;
    [|by vm_compute in Hrun].
  destruct (generate_consensus_motif_identifier _ _ _ _ _ r Hwf Hrun)
    as (ids & Hperm & Hid).
  by exists r, st', ids.
Defined.
